(** * Verification of the Flow/TypeScript helper layer

    Shallow embedding of [src/mods/utils/flow.ts] and
    [src/mods/utils/connect.ts].

    - [JS] holds the fragment of the host language the helpers run on:
      values, the abstract operations [ToBoolean] and [ToString], strict
      equality, [||], [new Error], template literals, and a small monad
      for code that can throw.
    - [Store] holds the object store: ordinary objects, with their own
      enumerable string-keyed data properties and their prototype,
      allocated in a heap and referred to by location, so that aliasing
      and mutation are visible; property definition and property
      assignment, the latter with the [__proto__] accessor of
      [Object.prototype].
    - [Flow] holds the functions of [flow.ts]; [FlowHelpers] holds the
      value-list and cast helpers of the same file.
    - [Connect] holds [explicitConnect] of [connect.ts], over an arbitrary
      binding function [connect]. *)

From Stdlib Require Import ZArith String Ascii List DecimalString.
From stdpp Require Import base option list gmap strings fin_maps.

Local Open Scope string_scope.

(* ===================================================================== *)
(** * The host language fragment *)
(* ===================================================================== *)

Module JS.

(** Objects live in the store and are referred to by location. *)
Abbreviation loc := nat.

(** Language values. A [VNumber] is an integer-valued Number in the range
    where [ToString] prints plain decimal digits; fractional Numbers, NaN
    and Symbols are not needed by the helpers and are left out. *)
Inductive value : Type :=
| VUndefined
| VNull
| VBoolean (b : bool)
| VNumber (n : Z)
| VString (s : string)
| VObject (l : loc).

#[global] Instance value_eq_dec : EqDecision value.
Proof. solve_decision. Defined.

(** [ToBoolean]: the falsy values are undefined, null, false, 0 and the
    empty string. *)
Definition ToBoolean (v : value) : bool :=
  match v with
  | VUndefined | VNull => false
  | VBoolean b => b
  | VNumber n => negb (n =? 0)%Z
  | VString s => negb (String.eqb s "")
  | VObject _ => true
  end.

(** [ToString]. An ordinary object inherits [Object.prototype.toString]. *)
Definition ToString (v : value) : string :=
  match v with
  | VUndefined => "undefined"
  | VNull => "null"
  | VBoolean true => "true"
  | VBoolean false => "false"
  | VNumber n => NilZero.string_of_int (Z.to_int n)
  | VString s => s
  | VObject _ => "[object Object]"
  end.

(** [a === b]: same type and same value; objects by identity. *)
Definition strict_equal (a b : value) : bool := bool_decide (a = b).

(** [a || b] yields [a] when it is truthy and [b] otherwise. *)
Definition or (a b : value) : value := if ToBoolean a then a else b.

(** [s.includes(sub)]. *)
Fixpoint includes (s sub : string) : bool :=
  String.prefix sub s ||
  match s with
  | EmptyString => false
  | String _ s' => includes s' sub
  end.

(** The double-quote character, for template literals that contain one. *)
Definition dquote : string := String "034"%char EmptyString.

(** Error objects, by their constructor and their message. *)
Inductive error : Type :=
| Error (message : string)
| TypeError (message : string).

Definition message (e : error) : string :=
  match e with
  | Error m | TypeError m => m
  end.

#[global] Instance error_eq_dec : EqDecision error.
Proof. solve_decision. Defined.

(** [new Error(m)]: the message is [ToString m] unless [m] is undefined. *)
Definition new_Error (m : value) : error :=
  match m with
  | VUndefined => Error ""
  | _ => Error (ToString m)
  end.

(** How a function body completes. *)
Inductive completion (A : Type) : Type :=
| Return (a : A)
| Throw (e : error).
Arguments Return {A} a.
Arguments Throw {A} e.

#[global] Instance completion_eq_dec {A} `{EqDecision A} : EqDecision (completion A).
Proof. solve_decision. Defined.

(** Whatever a caller can pass where the declared type is [never], by
    what interpolating it in a template literal does. The language fixes
    the conversion of undefined, null, Booleans and strings, and makes
    the conversion of a Symbol throw a TypeError. Any other value (a
    Number, a BigInt, an array or another object, whose conversion runs
    the object's own methods) is given by how its conversion completes:
    with a string or with an error. *)
Inductive any : Type :=
| AUndefined
| ANull
| ABoolean (b : bool)
| AString (s : string)
| ASymbol (description : string)
| AOther (conversion : completion string).

#[global] Instance any_eq_dec : EqDecision any.
Proof. solve_decision. Defined.

(** The conversion a template literal applies to an interpolated value. *)
Definition interpolate (x : any) : completion string :=
  match x with
  | AUndefined => Return "undefined"
  | ANull => Return "null"
  | ABoolean true => Return "true"
  | ABoolean false => Return "false"
  | AString s => Return s
  | ASymbol _ => Throw (TypeError "Cannot convert a Symbol value to a string")
  | AOther conversion => conversion
  end.

(** Calls between the functions of the module that a run can make. A
    string argument that is left out is [None]. *)
Inductive call : Type :=
| Call_assertExhaustiveCheck (notValid : any) (errorMessage : option string).

#[global] Instance call_eq_dec : EqDecision call.
Proof. solve_decision. Defined.

(** A run: the calls made, in order, and the completion. *)
Definition Exec (A : Type) : Type := list call * completion A.

Definition calls {A} (r : Exec A) : list call := r.1.
Definition outcome {A} (r : Exec A) : completion A := r.2.

#[global] Instance Exec_ret : MRet Exec := fun A a => ([], Return a).
#[global] Instance Exec_bind : MBind Exec := fun A B f m =>
  match m with
  | (t, Return a) => let '(t', c) := f a in ((t ++ t')%list, c)
  | (t, Throw e) => (t, Throw e)
  end.

Definition throw {A} (e : error) : Exec A := ([], Throw e).
Definition enter (c : call) : Exec unit := ([c], Return tt).

(** An operation of the language that makes no call. *)
Definition complete {A} (c : completion A) : Exec A := ([], c).

Definition raises {A} (r : Exec A) : bool :=
  match outcome r with Throw _ => true | Return _ => false end.

End JS.

Import JS.

(* ===================================================================== *)
(** * The object store *)
(* ===================================================================== *)

Module Store.

(** The own enumerable string-keyed data properties of an object.
    Enumeration order is left to the representation: no statement below
    depends on it. Symbol keys, accessor properties of the objects
    themselves, and non-writable or non-enumerable properties are not
    needed by the helpers and are left out. *)
Abbreviation bag := (gmap string value).

(** The prototype of an object: [Object.prototype], as for an object
    literal; null, as for [Object.create(null)]; or an object of the
    store. *)
Inductive prototype : Type :=
| ObjectPrototype
| NullPrototype
| PrototypeAt (l : loc).

#[global] Instance prototype_eq_dec : EqDecision prototype.
Proof. solve_decision. Defined.

(** An ordinary object. *)
Record object : Type := Object { props : bag; proto : prototype }.

(** The store. *)
Record heap : Type := Heap_of { objects : list object }.

(** [h !! l] is the bag of own properties of the object at location [l]. *)
#[global] Instance heap_lookup : Lookup loc bag heap :=
  fun l h => props <$> objects h !! l.

(** The store with one more object. *)
Definition push (h : heap) (x : object) : heap :=
  Heap_of (objects h ++ [x])%list.

(** The store with the object at [l] replaced. *)
Definition replace (l : loc) (x : object) (h : heap) : heap :=
  Heap_of (<[l := x]> (objects h)).

(** Code that reads and writes the store and cannot throw. [None] stands
    for a reference to a location the store does not hold, which no
    well-formed program state contains. *)
Definition Heap (A : Type) : Type := heap → option (A * heap).

#[global] Instance Heap_ret : MRet Heap := fun A a h => Some (a, h).
#[global] Instance Heap_bind : MBind Heap := fun A B f m h =>
  match m h with
  | Some (a, h') => f a h'
  | None => None
  end.

(** Code that reads and writes the store and can throw. *)
Definition HeapExc (A : Type) : Type := heap → option (completion A * heap).

#[global] Instance HeapExc_ret : MRet HeapExc := fun A a h => Some (Return a, h).
#[global] Instance HeapExc_bind : MBind HeapExc := fun A B f m h =>
  match m h with
  | Some (Return a, h') => f a h'
  | Some (Throw e, h') => Some (Throw e, h')
  | None => None
  end.

Definition lift {A} (m : Heap A) : HeapExc A :=
  fun h => match m h with
           | Some (a, h') => Some (Return a, h')
           | None => None
           end.

(** [{}] and other creation of an ordinary object: a location that was
    not in use, and [Object.prototype] as prototype. *)
Definition alloc (o : bag) : Heap loc :=
  fun h => Some (length (objects h), push h (Object o ObjectPrototype)).

(** The own properties of the object at [l]. *)
Definition own_properties (l : loc) : Heap bag :=
  fun h => match h !! l with Some o => Some (o, h) | None => None end.

(** CreateDataProperty: the own property [key] of the object at [l] is
    created or overwritten. *)
Definition define_property (l : loc) (key : string) (v : value) : Heap unit :=
  fun h => match objects h !! l with
           | Some x => Some (tt, replace l (Object (<[key := v]> (props x)) (proto x)) h)
           | None => None
           end.

(** Whether looking [__proto__] up along the prototype chain that starts
    at [p] ends at the accessor of [Object.prototype]: it does unless the
    chain ends in null or an object on the way has an own property of
    that name. A chain has no cycle, so it is no longer than the store
    holds objects, which is the [fuel] given. *)
Fixpoint finds_proto_accessor (fuel : nat) (h : heap) (p : prototype) : bool :=
  match p with
  | ObjectPrototype => true
  | NullPrototype => false
  | PrototypeAt l =>
      match fuel, objects h !! l with
      | S fuel', Some x =>
          match props x !! "__proto__" with
          | Some _ => false
          | None => finds_proto_accessor fuel' h (proto x)
          end
      | _, _ => false
      end
  end.

(** Whether the prototype chain that starts at [p] passes through the
    object at [target]. *)
Fixpoint chain_reaches (fuel : nat) (h : heap) (target : loc) (p : prototype) : bool :=
  match p with
  | PrototypeAt l =>
      if decide (l = target) then true
      else match fuel, objects h !! l with
           | S fuel', Some x => chain_reaches fuel' h target (proto x)
           | _, _ => false
           end
  | _ => false
  end.

(** SetPrototypeOf, as the [__proto__] setter uses it: nothing to do when
    the prototype is already [p]; a TypeError when the object at [l]
    would become its own ancestor. *)
Definition set_prototype (l : loc) (p : prototype) : HeapExc unit :=
  fun h => match objects h !! l with
           | Some x =>
               if decide (proto x = p) then Some (Return tt, h)
               else if chain_reaches (length (objects h)) h l p
               then Some (Throw (TypeError "Cyclic __proto__ value"), h)
               else Some (Return tt, replace l (Object (props x) p) h)
           | None => None
           end.

(** The setter of the [__proto__] accessor of [Object.prototype]: it
    changes the prototype when given an object or null, and does nothing
    when given anything else. *)
Definition proto_setter (l : loc) (v : value) : HeapExc unit :=
  match v with
  | VObject p => set_prototype l (PrototypeAt p)
  | VNull => set_prototype l NullPrototype
  | _ => mret tt
  end.

(** [object[key] = v], the Set operation on an ordinary object. The
    properties of the model are writable data properties, so the
    assignment creates or overwrites the own property [key], with one
    exception: the key [__proto__], when the object has no own property
    of that name and the lookup along its prototype chain finds the
    accessor of [Object.prototype], runs the setter of that accessor and
    creates no property. *)
Definition set_property (l : loc) (key : string) (v : value) : HeapExc unit :=
  fun h => match objects h !! l with
           | Some x =>
               if bool_decide (key = "__proto__")
                  && bool_decide (props x !! key = None)
                  && finds_proto_accessor (length (objects h)) h (proto x)
               then proto_setter l v h
               else Some (Return tt,
                          replace l (Object (<[key := v]> (props x)) (proto x)) h)
           | None => None
           end.

(** [for (const x of xs) body(x)]. *)
Fixpoint for_of {M : Type → Type} `{!MRet M, !MBind M} {A}
    (xs : list A) (body : A → M unit) : M unit :=
  match xs with
  | [] => mret tt
  | x :: xs' => body x;; for_of xs' body
  end.

(** The own enumerable properties of a String wrapper: one per index,
    holding the character at that index. A string is read as its
    sequence of code units, each of them below 256. *)
Fixpoint string_properties (i : nat) (s : string) : bag :=
  match s with
  | EmptyString => ∅
  | String c s' =>
      <[NilZero.string_of_uint (Nat.to_uint i) := VString (String c EmptyString)]>
        (string_properties (S i) s')
  end.

(** The own enumerable properties [Object.assign] copies from a source:
    none for undefined and null (the source is skipped) and for Boolean
    and Number wrappers. *)
Definition enumerable_own_properties (source : value) : Heap bag :=
  match source with
  | VObject l => own_properties l
  | VString s => mret (string_properties 0 s)
  | _ => mret ∅
  end.

(** [Object.entries(object)]. *)
Definition Object_entries (object : loc) : Heap (list (string * value)) :=
  o ← own_properties object; mret (map_to_list o).

(** [Object.assign(target, ...sources)]: each own enumerable property of
    each source is assigned to the target. *)
Definition Object_assign (target : loc) (sources : list value) : HeapExc value :=
  for_of sources (fun nextSource =>
    from ← lift (enumerable_own_properties nextSource);
    for_of (map_to_list from) (fun '(key, propValue) =>
      set_property target key propValue));;
  mret (VObject target).

(** [Object.fromEntries(entries)]: each entry is defined as an own
    property of a new object. *)
Definition Object_fromEntries (entries : list (string * value)) : Heap loc :=
  obj ← alloc ∅;
  for_of entries (fun '(key, v) => define_property obj key v);;
  mret obj.

(** A callback that computes its result from its arguments alone. *)
Definition pure_callback (f : value → string → value)
  : value → string → HeapExc value :=
  fun v key => mret (f v key).

(** ** What the loops compute, as functions on bags *)

(** The bag after [acc[key] = g(v, key)] for each entry in turn, when
    each assignment creates or overwrites a property. *)
Definition assigned (g : value → string → value)
    (acc : bag) (entries : list (string * value)) : bag :=
  foldl (fun acc '(key, v) => <[key := g v key]> acc) acc entries.

(** The properties a source contributes to [Object.assign], read off a
    store. *)
Definition props_in (h : heap) (source : value) : bag :=
  match source with
  | VObject l => default ∅ (h !! l)
  | VString s => string_properties 0 s
  | _ => ∅
  end.

(** [acc] overridden by each bag in turn: a later bag wins. *)
Definition overridden (sources : list bag) (acc : bag) : bag :=
  foldl (fun acc from => from ∪ acc) acc sources.

(** A value is in the store when it is no object or an object the store
    holds. *)
Definition in_store (h : heap) (v : value) : Prop :=
  match v with
  | VObject l => l < length (objects h)
  | _ => True
  end.

(** [h'] holds every object of [h], unchanged. *)
Definition preserves (h h' : heap) : Prop :=
  ∀ l x, objects h !! l = Some x → objects h' !! l = Some x.

End Store.

Import Store.

(** One step through a bind of the store monads. *)
Ltac heap_bind := unfold mbind at 1, Heap_bind at 1.
Ltac exc_bind := unfold mbind at 1, HeapExc_bind at 1.

(* ===================================================================== *)
(** * flow.ts *)
(* ===================================================================== *)

Module Flow.

(** [assertExhaustiveCheck(notValid, errorMessage = <template>)]: the
    default parameter value, a template literal that embeds [notValid]
    between double quotes, is evaluated exactly when the argument is left
    out. *)
Definition assertExhaustiveCheck (notValid : any) (errorMessage : option string)
  : Exec unit :=
  enter (Call_assertExhaustiveCheck notValid errorMessage);;
  errorMessage ←
    match errorMessage with
    | Some given => mret given
    | None =>
        s ← complete (interpolate notValid);
        mret ("There was an unhandled case for the value: " ++ dquote ++ s ++ dquote)
    end;
  throw (new_Error (VString errorMessage)).

(** The case labels of the [switch] in [convertToTransformType]. *)
Definition TransformType : list string :=
  [ "merge-call-node"; "merge-function"; "focus-subtree"; "focus-function";
    "focus-category"; "collapse-resource"; "collapse-direct-recursion";
    "collapse-indirect-recursion"; "collapse-function-subtree";
    "drop-function" ].

(** [convertToTransformType(type)]: a [switch] whose ten labels fall
    through to one [return coercedType]; the default arm holds the
    type-level expression [coercedType as never] (no run-time content)
    and [return null]. *)
Definition convertToTransformType (type : string) : Exec value :=
  let coercedType := type in
  if String.eqb coercedType "merge-call-node"
     || String.eqb coercedType "merge-function"
     || String.eqb coercedType "focus-subtree"
     || String.eqb coercedType "focus-function"
     || String.eqb coercedType "focus-category"
     || String.eqb coercedType "collapse-resource"
     || String.eqb coercedType "collapse-direct-recursion"
     || String.eqb coercedType "collapse-indirect-recursion"
     || String.eqb coercedType "collapse-function-subtree"
     || String.eqb coercedType "drop-function"
  then mret (VString coercedType)
  else mret VNull.

(** [ensureExists(item, message)]. *)
Definition ensureExists (item message : value) : Exec value :=
  if strict_equal item VNull then
    throw (new_Error
             (JS.or message (VString "Expected an item to exist, and it was null.")))
  else if strict_equal item VUndefined then
    throw (new_Error
             (JS.or message (VString "Expected an item to exist, and it was undefined.")))
  else mret item.


(** [immutableUpdate(object, ...rest)]. *)
Definition immutableUpdate (object : value) (rest : list value) : HeapExc value :=
  target ← lift (alloc ∅);
  Object_assign target (object :: rest).

(** [objectEntries(object)]. *)
Definition objectEntries (object : loc) : Heap (list (string * value)) :=
  Object_entries object.

(** [objectMap(object, fn)]. The callback is code of the caller: it can
    read and write the store, and throw. *)
Definition objectMap (object : loc) (fn : value → string → HeapExc value)
  : HeapExc loc :=
  result ← lift (alloc ∅);
  entries ← lift (objectEntries object);
  for_of entries (fun '(key, value) =>
    v ← fn value key;
    set_property result key v);;
  mret result.

(** A [Set], by its members in insertion order, which is the order its
    iterators visit them in. *)
Abbreviation JSSet := (list value).

(** [set.values().next().value]: the first member visited, or undefined
    when the iterator is already done. *)
Definition getFirstItemFromSet (set : JSSet) : value :=
  match set with
  | [] => VUndefined
  | x :: _ => x
  end.

End Flow.

Import Flow.

(* ===================================================================== *)
(** * connect.ts *)
(* ===================================================================== *)

Module Connect.

Section ExplicitConnect.

(** The binding library and the UI library are external: their values
    are opaque here, and [connect] may read and write whatever state
    [World] it keeps, and may throw. *)
Variables MapStateToProps MapDispatchToProps MergeProps ConnectOptions : Type.
Variables Component Exception World : Type.

Definition Host (A : Type) : Type := World → (Exception + A) * World.

#[local] Instance Host_ret : MRet Host := fun A a w => (inr a, w).
#[local] Instance Host_bind : MBind Host := fun A B f m w =>
  match m w with
  | (inr a, w') => f a w'
  | (inl e, w') => (inl e, w')
  end.

(** [ExplicitConnectOptions]: a field declared with [?] that is left
    out reads as undefined, here [None]. *)
Record ExplicitConnectOptions : Type := {
  mapStateToProps : option MapStateToProps;
  mapDispatchToProps : option MapDispatchToProps;
  mergeProps : option MergeProps;
  options : option ConnectOptions;
  component : Component;
}.

(** The binding function of the library: four positional arguments,
    each possibly undefined, yielding a function from components to
    components. *)
Variable connect :
  option MapStateToProps → option MapDispatchToProps →
  option MergeProps → option ConnectOptions →
  Host (Component → Host Component).

(** [explicitConnect(connectOptions)]. *)
Definition explicitConnect (connectOptions : ExplicitConnectOptions) : Host Component :=
  let '{| mapStateToProps := mapStateToProps;
          mapDispatchToProps := mapDispatchToProps;
          mergeProps := mergeProps;
          options := options;
          component := component |} := connectOptions in
  wrap ← connect mapStateToProps mapDispatchToProps mergeProps options;
  wrap component.

(** The call the specification compares [explicitConnect] with: the
    binding function applied directly to the four values in positional
    order, and its result applied to the component. *)
Definition connect_directly
    (stateMapper : option MapStateToProps)
    (dispatchMapper : option MapDispatchToProps)
    (merge : option MergeProps)
    (opts : option ConnectOptions)
    (target : Component) : Host Component :=
  fun w =>
    match connect stateMapper dispatchMapper merge opts w with
    | (inr wrap, w') => wrap target w'
    | (inl e, w') => (inl e, w')
    end.

End ExplicitConnect.

Arguments mapStateToProps {_ _ _ _ _} _.
Arguments mapDispatchToProps {_ _ _ _ _} _.
Arguments mergeProps {_ _ _ _ _} _.
Arguments options {_ _ _ _ _} _.
Arguments component {_ _ _ _ _} _.
Arguments explicitConnect {_ _ _ _ _ _ _} connect connectOptions _.
Arguments connect_directly {_ _ _ _ _ _ _} connect _ _ _ _ _ _.

End Connect.

(** A toy binding library to run [explicitConnect] on: its state is the
    log of the calls it received, components are names, and wrapping a
    component prefixes its name. *)
Module ToyBinding.

Inductive entry : Type :=
| Connect_called (stateMapper dispatchMapper merge opts : option string)
| Wrap_called (target : string).

Definition connect (stateMapper dispatchMapper merge opts : option string)
  : Connect.Host unit (list entry)
      (string → Connect.Host unit (list entry) string) :=
  fun log =>
    (inr (fun target log' =>
            (inr ("Connect(" ++ target ++ ")"), (log' ++ [Wrap_called target])%list)),
     (log ++ [Connect_called stateMapper dispatchMapper merge opts])%list).

Definition only_component : Connect.ExplicitConnectOptions string string string string string :=
  {| Connect.mapStateToProps := None;
     Connect.mapDispatchToProps := None;
     Connect.mergeProps := None;
     Connect.options := None;
     Connect.component := "Panel" |}.

End ToyBinding.


(** C5, as the specification words it: the default arm calls
    [assertExhaustiveCheck] on the unrecognized value and then returns
    null. Kept next to the source's function for comparison only. *)
Definition convertToTransformType_asserting (type : string) : Exec value :=
  let coercedType := type in
  if bool_decide (coercedType ∈ TransformType)
  then mret (VString coercedType)
  else assertExhaustiveCheck (AString coercedType) None;; mret VNull.

(** What C5 states of an input [s]: if [s] is unrecognized, the run calls
    the exhaustiveness assertion and still returns null. *)
Definition fallback_calls_assertion (s : string) : Prop :=
  s ∉ TransformType →
  (∃ notValid errorMessage,
      Call_assertExhaustiveCheck notValid errorMessage ∈ calls (convertToTransformType s)) ∧
  outcome (convertToTransformType s) = Return VNull.


(** What C3 states of a value [notValid] passed without a message: the
    error carries a default message that embeds a string form of the
    value. *)
Definition carries_default_message (notValid : any) : Prop :=
  ∃ s, outcome (assertExhaustiveCheck notValid None)
       = Throw (Error ("There was an unhandled case for the value: "
                         ++ dquote ++ s ++ dquote)).

(** What C6 states of a bag and a function: the result is a bag with the
    keys of the input, each key [k] holding [fn (input[k]) k]. *)
Definition maps_every_key (h : heap) (object : loc)
    (fn : value → string → value) : Prop :=
  ∀ o, h !! object = Some o →
  ∃ (result : loc) (h' : heap) (r : bag),
    objectMap object (pure_callback fn) h = Some (Return result, h') ∧
    h' !! result = Some r ∧
    dom r = dom o ∧
    (∀ k, r !! k = (fun v => fn v k) <$> o !! k).

(** What C9 states of an object updated with no further argument: the
    result is an object with the fields of the input. *)
Definition copies_every_field (h : heap) (object : loc) : Prop :=
  ∀ o, h !! object = Some o →
  ∃ (target : loc) (h' : heap),
    immutableUpdate (VObject object) [] h = Some (Return (VObject target), h') ∧
    h' !! target = Some o.

(** Sample data for the worked examples. *)
Module Sample.

(** [(v) => v * 2], on the Numbers of the model; the samples apply it
    to Numbers only. *)
Definition double (v : value) (_ : string) : value :=
  match v with
  | VNumber n => VNumber (n * 2)
  | _ => VUndefined
  end.

(** [{a: 1, b: 2}] and [{a: 2, b: 4}]. *)
Definition a1_b2 : bag := <["a" := VNumber 1]> (<["b" := VNumber 2]> ∅).
Definition a2_b4 : bag := <["a" := VNumber 2]> (<["b" := VNumber 4]> ∅).

(** [{b: 3, c: true}]. *)
Definition b3_c : bag := <["b" := VNumber 3]> (<["c" := VBoolean true]> ∅).

(** A store holding the first and the third, made as object literals. *)
Definition store : heap :=
  Heap_of [Object a1_b2 ObjectPrototype; Object b3_c ObjectPrototype].

(** An object with an own property named [__proto__], as
    [JSON.parse] makes of the text [{"__proto__": 5, "a": 1}], and a store
    holding it. *)
Definition proto5_a1 : bag := <["__proto__" := VNumber 5]> (<["a" := VNumber 1]> ∅).
Definition store_with_proto_key : heap :=
  Heap_of [Object proto5_a1 ObjectPrototype].

(** A store with an object made by [Object.create(null)], an object
    literal, and an object whose prototype is the second. *)
Definition store_with_prototypes : heap :=
  Heap_of [Object ∅ NullPrototype; Object a1_b2 ObjectPrototype;
           Object ∅ (PrototypeAt 1)].

(** [(v) => ({x: v})]: a callback that creates an object. *)
Definition box (v : value) (_ : string) : HeapExc value :=
  l ← lift (alloc (<["x" := v]> ∅)); mret (VObject l).

End Sample.

(* ===================================================================== *)
(** * flow.ts, the remaining helpers *)
(* ===================================================================== *)

Module FlowHelpers.

(** [Object.values(object)]: the values of the own enumerable properties,
    in the order in which [Object.entries] lists the properties. *)
Definition Object_values (object : loc) : Heap (list value) :=
  o ← own_properties object; mret (map_to_list o).*2.

(** [objectValues(object)]. *)
Definition objectValues (object : loc) : Heap (list value) :=
  Object_values object.

(** [getObjectValuesAsUnion(obj)]. *)
Definition getObjectValuesAsUnion (obj : loc) : Heap (list value) :=
  Object_values obj.

(** [coerce(item)] and [coerceMatchingShape(item)]: the casts are erased,
    the item is returned as it is. *)
Definition coerce (item : value) : value := item.
Definition coerceMatchingShape (item : value) : value := item.

(** A store is closed when every object a property or a prototype slot
    refers to is an object of the store. *)
Definition closed (h : heap) : Prop :=
  (∀ l o k v, h !! l = Some o → o !! k = Some v → in_store h v) ∧
  (∀ l x p, objects h !! l = Some x → proto x = PrototypeAt p →
            p < length (objects h)).

(** An object whose property values and prototype are in [h]: what holds
    of the object an update builds after [h]. *)
Definition refers_within (h : heap) (t : object) : Prop :=
  (∀ k v, props t !! k = Some v → in_store h v) ∧
  (∀ p, proto t = PrototypeAt p → p < length (objects h)).

(** The sources [Object.assign] reads properties from: objects and
    strings. It skips undefined and null, and finds no own enumerable
    property on a Boolean or a Number. *)
Definition has_properties (v : value) : bool :=
  match v with
  | VObject _ | VString _ => true
  | _ => false
  end.

(** A callback that, run in any store that holds the objects of [h],
    returns a value and leaves every object of that store as it is. It
    can create objects. *)
Definition returns_and_preserves (h : heap)
    (fn : value → string → HeapExc value) : Prop :=
  ∀ v k h0, preserves h h0 →
            ∃ w h1, fn v k h0 = Some (Return w, h1) ∧ preserves h0 h1.

(** The entries other than the one for [__proto__]. *)
Definition others (entries : list (string * value)) : list (string * value) :=
  filter (fun e : string * value => e.1 ≠ "__proto__") entries.

(** A source without an own property named [__proto__]. *)
Definition no_proto_key (h : heap) (source : value) : Prop :=
  props_in h source !! "__proto__" = None.

End FlowHelpers.

Import FlowHelpers.

(** * Properties *)

(* ===================================================================== *)
(** ** Closed-set conversion *)
(* ===================================================================== *)

Section ClosedSetConversion.

(** The disjunction of the ten case labels decides membership in
    [TransformType]. *)
Lemma switch_labels (s : string) :
  String.eqb s "merge-call-node"
  || String.eqb s "merge-function"
  || String.eqb s "focus-subtree"
  || String.eqb s "focus-function"
  || String.eqb s "focus-category"
  || String.eqb s "collapse-resource"
  || String.eqb s "collapse-direct-recursion"
  || String.eqb s "collapse-indirect-recursion"
  || String.eqb s "collapse-function-subtree"
  || String.eqb s "drop-function"
  = bool_decide (s ∈ TransformType).
Proof.
  repeat match goal with
         | |- context [String.eqb s ?lit] =>
             destruct (String.eqb_spec s lit) as [->|?]; [reflexivity|]
         end.
  symmetry. apply bool_decide_eq_false.
  unfold TransformType. rewrite !elem_of_cons, elem_of_nil. tauto.
Qed.

Lemma convertToTransformType_unfold (s : string) :
  convertToTransformType s =
    mret (if bool_decide (s ∈ TransformType) then VString s else VNull).
Proof.
  unfold convertToTransformType. cbv zeta. rewrite switch_labels.
  by case_bool_decide.
Qed.

Lemma TransformType_length : length TransformType = 10.
Proof. reflexivity. Qed.

Lemma TransformType_NoDup : NoDup TransformType.
Proof. apply (bool_decide_unpack _). vm_compute. exact I. Qed.

End ClosedSetConversion.

(** C1: [convertToTransformType s] returns [s] itself exactly when [s] is
    one of the ten recognized literals, compared as whole strings, and
    returns null exactly when it is not; so the empty string, a variant in
    another case, a proper prefix and a proper suffix of a recognized
    value all give null. *)
Theorem convertToTransformType_exact_match (s : string) :
  (convertToTransformType s = mret (VString s) ↔ s ∈ TransformType) ∧
  (convertToTransformType s = mret VNull ↔ s ∉ TransformType) ∧
  convertToTransformType "" = mret VNull ∧
  convertToTransformType "Merge-Function" = mret VNull ∧
  convertToTransformType "merge" = mret VNull ∧
  convertToTransformType "function" = mret VNull.
Proof.
  rewrite convertToTransformType_unfold.
  split_and!; try reflexivity.
  - case_bool_decide; split; done.
  - case_bool_decide; split; done.
Qed.

Lemma convertToTransformType_exact_match_witness :
  convertToTransformType "drop-function" = mret (VString "drop-function") ∧
  convertToTransformType "drop-function " = mret VNull.
Proof.
  split.
  - destruct (convertToTransformType_exact_match "drop-function") as [[_ H] _].
    apply H. apply (bool_decide_unpack _). vm_compute. exact I.
  - destruct (convertToTransformType_exact_match "drop-function ") as (_ & [_ H] & _).
    apply H. apply (bool_decide_unpack _). vm_compute. exact I.
Defined.

(* ===================================================================== *)
(** ** Exhaustiveness assertion *)
(* ===================================================================== *)

(** The run of [assertExhaustiveCheck] with a message: its arguments are
    recorded and the body throws. *)
Lemma assertExhaustiveCheck_given (notValid : any) (given : string) :
  assertExhaustiveCheck notValid (Some given)
  = ([Call_assertExhaustiveCheck notValid (Some given)], Throw (Error given)).
Proof. reflexivity. Qed.

(** Without a message, the default parameter value is evaluated first:
    the error is its own when the interpolation throws. *)
Lemma assertExhaustiveCheck_default (notValid : any) :
  assertExhaustiveCheck notValid None
  = ([Call_assertExhaustiveCheck notValid None],
     match interpolate notValid with
     | Return s =>
         Throw (Error ("There was an unhandled case for the value: "
                         ++ dquote ++ s ++ dquote))
     | Throw e => Throw e
     end).
Proof.
  unfold assertExhaustiveCheck, complete. cbn.
  by destruct (interpolate notValid).
Qed.

Lemma assertExhaustiveCheck_raises (notValid : any) (errorMessage : option string) :
  raises (assertExhaustiveCheck notValid errorMessage) = true.
Proof.
  destruct errorMessage as [given|].
  - by rewrite assertExhaustiveCheck_given.
  - rewrite assertExhaustiveCheck_default. unfold raises. cbn.
    by destruct (interpolate notValid).
Qed.

Lemma assertExhaustiveCheck_calls (notValid : any) (errorMessage : option string) :
  calls (assertExhaustiveCheck notValid errorMessage)
  = [Call_assertExhaustiveCheck notValid errorMessage].
Proof.
  destruct errorMessage as [given|].
  - by rewrite assertExhaustiveCheck_given.
  - by rewrite assertExhaustiveCheck_default.
Qed.

(** C3, refuted as stated: called on a Symbol without a message,
    [assertExhaustiveCheck] raises the TypeError of the interpolation,
    which is no default message. *)
Lemma assertExhaustiveCheck_symbol_no_default :
  ¬ carries_default_message (ASymbol "kind").
Proof. intros [s Hs]. rewrite assertExhaustiveCheck_default in Hs. discriminate Hs. Qed.

(** C3, amended: [assertExhaustiveCheck] throws on every call, whatever
    the value; the error carries the supplied message when one is
    supplied; otherwise, when the value converts to a string, the error
    carries the default message, which embeds that string between double
    quotes, and when the conversion throws, as it does for a Symbol, the
    error is the one the conversion throws. *)
Theorem assertExhaustiveCheck_always_throws (notValid : any)
    (errorMessage : option string) :
  ∃ e, outcome (assertExhaustiveCheck notValid errorMessage) = Throw e ∧
       (∀ given, errorMessage = Some given → e = Error given) ∧
       (errorMessage = None →
          ∀ s, interpolate notValid = Return s →
               e = Error ("There was an unhandled case for the value: "
                            ++ dquote ++ s ++ dquote)) ∧
       (errorMessage = None →
          ∀ e', interpolate notValid = Throw e' → e = e') ∧
       (∀ s, notValid = AString s → interpolate notValid = Return s) ∧
       (∀ description, notValid = ASymbol description →
                       ∃ m, interpolate notValid = Throw (TypeError m)) ∧
       interpolate AUndefined = Return "undefined" ∧
       interpolate ANull = Return "null" ∧
       interpolate (ABoolean true) = Return "true" ∧
       interpolate (ABoolean false) = Return "false".
Proof.
  destruct errorMessage as [given|].
  - rewrite assertExhaustiveCheck_given. exists (Error given).
    split_and!; try done.
    + by intros ? [= ->].
    + by intros s ->.
    + intros d ->. by eexists.
  - rewrite assertExhaustiveCheck_default.
    destruct (interpolate notValid) as [s|e] eqn:Hi.
    + eexists. split_and!; try done.
      * by intros _ ? [= ->].
      * intros s' ->. by injection Hi as ->.
      * by intros d ->.
    + exists e. split_and!; try done.
      * by intros _ ? [= ->].
      * by intros s' ->.
      * intros d ->. cbn in Hi. injection Hi as <-. by eexists.
Qed.

Lemma assertExhaustiveCheck_always_throws_witness :
  (∃ e, outcome (assertExhaustiveCheck (AString "rotate") None) = Throw e ∧
        e = Error ("There was an unhandled case for the value: "
                     ++ dquote ++ "rotate" ++ dquote)) ∧
  (∃ e, outcome (assertExhaustiveCheck (ASymbol "kind") (Some "unknown kind")) = Throw e ∧
        e = Error "unknown kind") ∧
  (∃ e, outcome (assertExhaustiveCheck (ASymbol "kind") None) = Throw e ∧
        e = TypeError "Cannot convert a Symbol value to a string").
Proof.
  split_and!.
  - destruct (assertExhaustiveCheck_always_throws (AString "rotate") None)
      as (e & He & _ & Hdefault & _).
    exists e. split; [exact He|]. by apply Hdefault.
  - destruct (assertExhaustiveCheck_always_throws (ASymbol "kind") (Some "unknown kind"))
      as (e & He & Hgiven & _).
    exists e. split; [exact He|]. by apply Hgiven.
  - destruct (assertExhaustiveCheck_always_throws (ASymbol "kind") None)
      as (e & He & _ & _ & Hthrows & _).
    exists e. split; [exact He|]. by apply Hthrows.
Defined.

(* ===================================================================== *)
(** ** The fallback of the closed-set conversion *)
(* ===================================================================== *)

(** Had the default arm called the assertion, unrecognized input would
    raise instead of giving null. *)
Lemma convertToTransformType_asserting_raises (s : string) :
  s ∉ TransformType → raises (convertToTransformType_asserting s) = true.
Proof.
  intros Hs. unfold convertToTransformType_asserting. cbv zeta.
  rewrite bool_decide_eq_false_2 by done. reflexivity.
Qed.

(** C5, refuted as stated: on the unrecognized string "bogus" the run of
    [convertToTransformType] contains no call of the exhaustiveness
    assertion. *)
Lemma convertToTransformType_fallback_no_assertion :
  ¬ fallback_calls_assertion "bogus".
Proof.
  intros H. destruct H as [(notValid & errorMessage & Hin) _].
  - apply (bool_decide_unpack _). vm_compute. exact I.
  - cbn in Hin. by apply elem_of_nil in Hin.
Qed.

(** C5, amended: [convertToTransformType] never raises and calls nothing,
    the exhaustiveness assertion included; each of the ten enumerated
    values is returned as it is, and every unrecognized string reaches the
    fallback, which returns null. *)
Theorem convertToTransformType_never_raises (s : string) :
  raises (convertToTransformType s) = false ∧
  calls (convertToTransformType s) = [] ∧
  length TransformType = 10 ∧
  (s ∈ TransformType → outcome (convertToTransformType s) = Return (VString s)) ∧
  (s ∉ TransformType → outcome (convertToTransformType s) = Return VNull).
Proof.
  rewrite convertToTransformType_unfold.
  split_and!; try reflexivity.
  - intros Hs. by rewrite bool_decide_eq_true_2.
  - intros Hs. by rewrite bool_decide_eq_false_2.
Qed.

Lemma convertToTransformType_never_raises_witness :
  outcome (convertToTransformType "focus-category") = Return (VString "focus-category") ∧
  outcome (convertToTransformType "bogus") = Return VNull.
Proof.
  split.
  - destruct (convertToTransformType_never_raises "focus-category") as (_ & _ & _ & H & _).
    apply H. apply (bool_decide_unpack _). vm_compute. exact I.
  - destruct (convertToTransformType_never_raises "bogus") as (_ & _ & _ & _ & H).
    apply H. apply (bool_decide_unpack _). vm_compute. exact I.
Defined.

(* ===================================================================== *)
(** ** Existence guard *)
(* ===================================================================== *)

Section ExistenceGuard.

Lemma strict_equal_true (a b : value) : strict_equal a b = true ↔ a = b.
Proof. unfold strict_equal. apply bool_decide_eq_true. Qed.

Lemma strict_equal_false (a b : value) : strict_equal a b = false ↔ a ≠ b.
Proof. unfold strict_equal. apply bool_decide_eq_false. Qed.

(** A present value comes back as it is, whatever the message. *)
Lemma ensureExists_present (item message : value) :
  item ≠ VNull → item ≠ VUndefined → ensureExists item message = mret item.
Proof.
  intros Hnull Hundef. unfold ensureExists.
  apply strict_equal_false in Hnull, Hundef. by rewrite Hnull, Hundef.
Qed.

(** An absent value throws; the message is chosen by [||]. *)
Lemma ensureExists_null (message : value) :
  ensureExists VNull message =
    throw (new_Error (JS.or message
                        (VString "Expected an item to exist, and it was null."))).
Proof. reflexivity. Qed.

Lemma ensureExists_undefined (message : value) :
  ensureExists VUndefined message =
    throw (new_Error (JS.or message
                        (VString "Expected an item to exist, and it was undefined."))).
Proof. reflexivity. Qed.

(** A truthy message is the one the error carries. *)
Lemma or_truthy (a b : value) : ToBoolean a = true → JS.or a b = a.
Proof. unfold JS.or. by intros ->. Qed.

Lemma or_falsy (a b : value) : ToBoolean a = false → JS.or a b = b.
Proof. unfold JS.or. by intros ->. Qed.

End ExistenceGuard.

(** C2: with no custom message, [ensureExists] on null throws an error
    whose message contains "null", and on undefined one whose message
    contains "undefined"; on any other value (0, false and the empty
    string included) it returns that value unchanged and does not throw. *)
Theorem ensureExists_guard :
  (∃ e, ensureExists VNull VUndefined = throw e ∧
        includes (message e) "null" = true) ∧
  (∃ e, ensureExists VUndefined VUndefined = throw e ∧
        includes (message e) "undefined" = true) ∧
  (∀ item message,
     item ≠ VNull → item ≠ VUndefined → ensureExists item message = mret item) ∧
  ensureExists (VNumber 0) VUndefined = mret (VNumber 0) ∧
  ensureExists (VBoolean false) VUndefined = mret (VBoolean false) ∧
  ensureExists (VString "") VUndefined = mret (VString "").
Proof.
  split_and!; try reflexivity.
  - eexists. split; [apply ensureExists_null|reflexivity].
  - eexists. split; [apply ensureExists_undefined|reflexivity].
  - apply ensureExists_present.
Qed.

Lemma ensureExists_guard_witness :
  ensureExists (VObject 7) (VString "missing thread") = mret (VObject 7).
Proof.
  destruct ensureExists_guard as (_ & _ & H & _).
  apply H; discriminate.
Defined.

(** C10: on an absent value, a custom message that is the empty string or
    null is not used: the error carries the built-in default message,
    because the message is chosen with [||], by truthiness. A truthy
    message is carried as supplied. *)
Theorem ensureExists_falsy_message (message : value) :
  (message = VString "" ∨ message = VNull →
     ensureExists VNull message
       = throw (Error "Expected an item to exist, and it was null.") ∧
     ensureExists VUndefined message
       = throw (Error "Expected an item to exist, and it was undefined.")) ∧
  (ToBoolean message = false →
     ensureExists VNull message
       = throw (Error "Expected an item to exist, and it was null.") ∧
     ensureExists VUndefined message
       = throw (Error "Expected an item to exist, and it was undefined.")) ∧
  (ToBoolean message = true →
     ensureExists VNull message = throw (Error (ToString message)) ∧
     ensureExists VUndefined message = throw (Error (ToString message))).
Proof.
  rewrite ensureExists_null, ensureExists_undefined.
  split_and!.
  - by intros [-> | ->].
  - intros Hf. by rewrite !or_falsy.
  - intros Ht. rewrite !or_truthy by done. by destruct message.
Qed.

Lemma ensureExists_falsy_message_witness :
  ensureExists VNull (VString "")
    = throw (Error "Expected an item to exist, and it was null.") ∧
  ensureExists VUndefined VNull
    = throw (Error "Expected an item to exist, and it was undefined.") ∧
  ensureExists VNull (VString "no selection")
    = throw (Error "no selection").
Proof.
  split_and!.
  - destruct (ensureExists_falsy_message (VString "")) as (H & _ & _).
    apply H. left. reflexivity.
  - destruct (ensureExists_falsy_message VNull) as (_ & H & _).
    apply H. reflexivity.
  - destruct (ensureExists_falsy_message (VString "no selection")) as (_ & _ & H).
    apply H. reflexivity.
Defined.

(* ===================================================================== *)
(** ** First item of a set *)
(* ===================================================================== *)

(** C8, refuted as stated: the set whose only member is undefined is not
    empty, and [getFirstItemFromSet] returns undefined on it. *)
Lemma getFirstItemFromSet_undefined_member :
  ¬ (getFirstItemFromSet [VUndefined] = VUndefined ↔ [VUndefined] = @nil value).
Proof. intros [H _]. specialize (H eq_refl). discriminate H. Qed.

(** C8, amended: [getFirstItemFromSet] returns undefined on the empty set
    and otherwise a member of the set, the first one its iterator visits;
    so it returns undefined only when the set is empty or undefined is
    that member, and on a set that does not hold undefined it returns
    undefined exactly when the set is empty. *)
Theorem getFirstItemFromSet_member (set : JSSet) :
  (set = [] → getFirstItemFromSet set = VUndefined) ∧
  (set ≠ [] → getFirstItemFromSet set ∈ set ∧
              head set = Some (getFirstItemFromSet set)) ∧
  (getFirstItemFromSet set = VUndefined ↔ set = [] ∨ head set = Some VUndefined) ∧
  (VUndefined ∉ set → (getFirstItemFromSet set = VUndefined ↔ set = [])).
Proof.
  destruct set as [|x set']; cbn.
  - split_and!; try done. split; auto.
  - split_and!.
    + done.
    + intros _. split; [apply list_elem_of_here|done].
    + split.
      * intros ->. by right.
      * intros [?|[= ->]]; done.
    + intros Hnotin. split; [|done].
      intros ->. destruct Hnotin. apply list_elem_of_here.
Qed.

Lemma getFirstItemFromSet_member_witness :
  getFirstItemFromSet [VString "main"; VNumber 4] ∈ [VString "main"; VNumber 4] ∧
  getFirstItemFromSet [] = VUndefined.
Proof.
  split.
  - destruct (getFirstItemFromSet_member [VString "main"; VNumber 4]) as (_ & H & _).
    apply H. discriminate.
  - destruct (getFirstItemFromSet_member []) as (H & _).
    apply H. reflexivity.
Defined.

(* ===================================================================== *)
(** ** The binding wrapper *)
(* ===================================================================== *)

Section BindingWrapper.

Context {MapStateToProps MapDispatchToProps MergeProps ConnectOptions : Type}.
Context {Component Exception World : Type}.

Variable connect :
  option MapStateToProps → option MapDispatchToProps →
  option MergeProps → option ConnectOptions →
  Connect.Host Exception World (Component → Connect.Host Exception World Component).

(** When the binding function throws, so does the wrapper, with the same
    exception and the same state: it adds no handler of its own. *)
Lemma explicitConnect_connect_throws cfg w e w' :
  connect (Connect.mapStateToProps cfg) (Connect.mapDispatchToProps cfg)
          (Connect.mergeProps cfg) (Connect.options cfg) w = (inl e, w') →
  Connect.explicitConnect connect cfg w = (inl e, w').
Proof.
  destruct cfg; cbn. unfold mbind, Connect.Host_bind. by intros ->.
Qed.

(** When the binding function returns [wrap], the wrapper's result and
    final state are those of [wrap component]. *)
Lemma explicitConnect_connect_returns cfg w wrap w' :
  connect (Connect.mapStateToProps cfg) (Connect.mapDispatchToProps cfg)
          (Connect.mergeProps cfg) (Connect.options cfg) w = (inr wrap, w') →
  Connect.explicitConnect connect cfg w = wrap (Connect.component cfg) w'.
Proof.
  destruct cfg; cbn. unfold mbind, Connect.Host_bind. by intros ->.
Qed.

End BindingWrapper.

(** C4: for every binding function [connect], every configuration and
    every state of the binding library, [explicitConnect] on the
    configuration is the same computation as [connect] called directly
    with the four fields in positional order and its result applied to
    the component: same result or exception, same final state. No field
    is inspected, and an omitted field is passed on as undefined. *)
Theorem explicitConnect_is_connect
    {MapStateToProps MapDispatchToProps MergeProps ConnectOptions : Type}
    {Component Exception World : Type}
    (connect :
       option MapStateToProps → option MapDispatchToProps →
       option MergeProps → option ConnectOptions →
       Connect.Host Exception World (Component → Connect.Host Exception World Component))
    (connectOptions :
       Connect.ExplicitConnectOptions
         MapStateToProps MapDispatchToProps MergeProps ConnectOptions Component)
    (w : World) :
  Connect.explicitConnect connect connectOptions w
  = Connect.connect_directly connect
      (Connect.mapStateToProps connectOptions)
      (Connect.mapDispatchToProps connectOptions)
      (Connect.mergeProps connectOptions)
      (Connect.options connectOptions)
      (Connect.component connectOptions) w.
Proof.
  unfold Connect.connect_directly.
  destruct (connect (Connect.mapStateToProps connectOptions)
                    (Connect.mapDispatchToProps connectOptions)
                    (Connect.mergeProps connectOptions)
                    (Connect.options connectOptions) w) as [[e|wrap] w'] eqn:Hc.
  - by apply explicitConnect_connect_throws.
  - by apply explicitConnect_connect_returns.
Qed.

(** On the toy library: one call of [connect] with four undefined
    arguments, then one call of the wrapping function, and nothing else. *)
Example explicitConnect_only_component :
  Connect.explicitConnect ToyBinding.connect ToyBinding.only_component []
  = (inr "Connect(Panel)",
     [ToyBinding.Connect_called None None None None; ToyBinding.Wrap_called "Panel"]).
Proof. reflexivity. Qed.

(* ===================================================================== *)
(** ** The object store *)
(* ===================================================================== *)

Local Open Scope list_scope.

Section StoreLemmas.

Implicit Types (h : heap) (o acc : bag) (x y : object) (l : loc) (k : string).
Implicit Types (p : prototype).

(** *** Allocation *)

Lemma alloc_run o h :
  alloc o h = Some (length (objects h), push h (Object o ObjectPrototype)).
Proof. reflexivity. Qed.

Lemma lookup_unfold h l : h !! l = props <$> objects h !! l.
Proof. reflexivity. Qed.

Lemma fresh_location h : h !! length (objects h) = None.
Proof. by rewrite lookup_unfold, lookup_ge_None_2. Qed.

Lemma objects_push_new h x : objects (push h x) !! length (objects h) = Some x.
Proof. cbn. by apply list_lookup_middle. Qed.

Lemma objects_push_old h x l y :
  objects h !! l = Some y → objects (push h x) !! l = Some y.
Proof. intros Hl. cbn. by apply lookup_app_l_Some. Qed.

Lemma lookup_new h x : push h x !! length (objects h) = Some (props x).
Proof. by rewrite lookup_unfold, objects_push_new. Qed.

Lemma lookup_old h x l b : h !! l = Some b → push h x !! l = Some b.
Proof.
  rewrite !lookup_unfold. intros Hl.
  destruct (objects h !! l) as [y|] eqn:Hy; [|done].
  by rewrite (objects_push_old _ _ _ _ Hy).
Qed.

Lemma lookup_objects h l b : h !! l = Some b → ∃ x, objects h !! l = Some x ∧ props x = b.
Proof.
  rewrite lookup_unfold. destruct (objects h !! l) as [x|]; [|done].
  intros [= <-]. by exists x.
Qed.

Lemma objects_lookup h l x : objects h !! l = Some x → h !! l = Some (props x).
Proof. rewrite lookup_unfold. by intros ->. Qed.

Lemma lookup_in_store h l b : h !! l = Some b → l < length (objects h).
Proof. intros (x & Hx & _)%lookup_objects. by eapply lookup_lt_Some. Qed.

Lemma replace_new h x y : replace (length (objects h)) y (push h x) = push h y.
Proof.
  unfold replace, push. cbn. f_equal.
  replace (length (objects h)) with (length (objects h) + 0) at 1 by lia.
  by rewrite insert_app_r.
Qed.

(** *** Stores that keep what another holds *)

Lemma preserves_refl h : preserves h h.
Proof. by intros l x. Qed.

Lemma preserves_trans h1 h2 h3 : preserves h1 h2 → preserves h2 h3 → preserves h1 h3.
Proof. intros H12 H23 l x Hl. by apply H23, H12. Qed.

Lemma preserves_push h x : preserves h (push h x).
Proof. intros l y. apply objects_push_old. Qed.

Lemma preserves_lookup h h' l b : preserves h h' → h !! l = Some b → h' !! l = Some b.
Proof.
  intros Hp (x & Hx & <-)%lookup_objects. by apply objects_lookup, Hp.
Qed.

Lemma preserves_replace h h' l y :
  preserves h h' → objects h !! l = None → preserves h (replace l y h').
Proof.
  intros Hp Hl l' x Hx. cbn. rewrite list_lookup_insert_ne; [by apply Hp|].
  intros ->. congruence.
Qed.

(** *** Assignment and definition *)

(** Every key but [__proto__] is created or overwritten. *)
Lemma set_property_plain h l x key (v : value) :
  key ≠ "__proto__" →
  objects h !! l = Some x →
  set_property l key v h
  = Some (Return tt, replace l (Object (<[key := v]> (props x)) (proto x)) h).
Proof.
  intros Hkey Hl. unfold set_property. rewrite Hl.
  by rewrite (bool_decide_eq_false_2 _ Hkey).
Qed.

(** On an object that inherits the accessor and has no own property of
    the name, the key [__proto__] runs the setter. *)
Lemma set_property_proto_key h l x (v : value) :
  objects h !! l = Some x →
  props x !! "__proto__" = None →
  finds_proto_accessor (length (objects h)) h (proto x) = true →
  set_property l "__proto__" v h = proto_setter l v h.
Proof.
  intros Hl Hown Hacc. unfold set_property. rewrite Hl, Hacc.
  by rewrite !bool_decide_eq_true_2.
Qed.

(** A loop of assignments to the newest object, none of them to the key
    [__proto__]. *)
Lemma for_of_set_property_new (g : value → string → value) entries :
  ∀ h acc p,
    "__proto__" ∉ entries.*1 →
    for_of entries (fun '(key, v) => set_property (length (objects h)) key (g v key))
      (push h (Object acc p))
    = Some (Return tt, push h (Object (assigned g acc entries) p)).
Proof.
  induction entries as [|[key v] entries IH]; intros h acc p Hkeys; [done|].
  rewrite fmap_cons in Hkeys. apply not_elem_of_cons in Hkeys as [Hkey Hkeys].
  cbn [for_of]. exc_bind.
  rewrite (set_property_plain _ _ (Object acc p)); [|done|apply objects_push_new].
  rewrite replace_new. cbn [props proto]. by apply IH.
Qed.

(** The same loop with a callback that computes its result from its
    arguments alone. *)
Lemma for_of_pure_callback_new (g : value → string → value) entries :
  ∀ h acc p,
    "__proto__" ∉ entries.*1 →
    for_of entries (fun '(key, value) =>
      v ← pure_callback g value key;
      set_property (length (objects h)) key v) (push h (Object acc p))
    = Some (Return tt, push h (Object (assigned g acc entries) p)).
Proof.
  induction entries as [|[key v] entries IH]; intros h acc p Hkeys; [done|].
  rewrite fmap_cons in Hkeys. apply not_elem_of_cons in Hkeys as [Hkey Hkeys].
  cbn [for_of]. exc_bind. exc_bind. unfold pure_callback at 1, mret at 1, HeapExc_ret at 1.
  rewrite (set_property_plain _ _ (Object acc p)); [|done|apply objects_push_new].
  rewrite replace_new. cbn [props proto]. by apply IH.
Qed.

(** A loop of definitions on the newest object: every key is created or
    overwritten. *)
Lemma for_of_define_property_new entries :
  ∀ h acc p,
    for_of entries (fun '(key, v) => define_property (length (objects h)) key v)
      (push h (Object acc p))
    = Some (tt, push h (Object (assigned (fun v _ => v) acc entries) p)).
Proof.
  induction entries as [|[key v] entries IH]; intros h acc p; [done|].
  cbn [for_of]. heap_bind. unfold define_property at 1.
  rewrite objects_push_new, replace_new. cbn [props proto]. by apply IH.
Qed.

Lemma assigned_lookup (g : value → string → value) entries :
  ∀ acc k,
    NoDup entries.*1 →
    assigned g acc entries !! k
    = match (list_to_map entries : bag) !! k with
      | Some v => Some (g v k)
      | None => acc !! k
      end.
Proof.
  induction entries as [|[key v] entries IH]; intros acc k Hnd; cbn.
  - by rewrite lookup_empty.
  - rewrite fmap_cons in Hnd. cbn [fst] in Hnd.
    apply NoDup_cons in Hnd as [Hkey Hnd].
    unfold assigned in IH. rewrite IH by done.
    destruct (decide (key = k)) as [->|Hne].
    + rewrite lookup_insert_eq.
      apply not_elem_of_list_to_map_1 in Hkey. rewrite Hkey.
      by rewrite lookup_insert_eq.
    + by rewrite !lookup_insert_ne.
Qed.

Lemma assigned_map_to_list (g : value → string → value) o acc k :
  assigned g acc (map_to_list o) !! k
  = match o !! k with
    | Some v => Some (g v k)
    | None => acc !! k
    end.
Proof.
  rewrite assigned_lookup by apply NoDup_fst_map_to_list.
  by rewrite list_to_map_to_list.
Qed.

(** Mapping [g] over a bag from the empty bag: the same keys, each value
    transformed. *)
Lemma assigned_empty_lookup (g : value → string → value) o k :
  assigned g ∅ (map_to_list o) !! k = (fun v => g v k) <$> o !! k.
Proof.
  rewrite assigned_map_to_list, lookup_empty. by destruct (o !! k).
Qed.

Lemma assigned_empty_dom (g : value → string → value) o :
  dom (assigned g ∅ (map_to_list o)) = dom o.
Proof.
  apply set_eq. intros k. rewrite !elem_of_dom, assigned_empty_lookup.
  by rewrite fmap_is_Some.
Qed.

(** Copying a bag onto another: a union in which the copied bag wins. *)
Lemma assigned_copy o acc :
  assigned (fun v _ => v) acc (map_to_list o) = o ∪ acc.
Proof.
  apply map_eq. intros k. rewrite assigned_map_to_list, lookup_union.
  by destruct (o !! k), (acc !! k).
Qed.

Lemma assigned_copy_empty o :
  assigned (fun v _ => v) ∅ (map_to_list o) = o.
Proof. by rewrite assigned_copy, (right_id_L ∅ (∪)). Qed.

(** *** Overriding *)

Lemma overridden_lookup (sources : list bag) :
  ∀ acc k,
    overridden sources acc !! k
    = match last (omap (fun from => from !! k) sources) with
      | Some v => Some v
      | None => acc !! k
      end.
Proof.
  induction sources as [|from sources IH]; intros acc k; cbn; [done|].
  unfold overridden in IH. rewrite IH, lookup_union.
  destruct (from !! k) as [v|] eqn:Hfrom; cbn.
  - rewrite last_cons. destruct (last _); [done|].
    by destruct (acc !! k).
  - destruct (last _); [done|]. by destruct (acc !! k).
Qed.

Lemma overridden_empty_lookup (sources : list bag) k :
  overridden sources ∅ !! k = last (omap (fun from => from !! k) sources).
Proof. rewrite overridden_lookup, lookup_empty. by destruct (last _). Qed.

Lemma omap_after_fmap {A B C} (f : B → option C) (g : A → B) (xs : list A) :
  omap f (g <$> xs) = omap (fun a => f (g a)) xs.
Proof. induction xs as [|a xs IH]; cbn; [done|]. by rewrite IH. Qed.


Lemma not_elem_of_keys o k : o !! k = None → k ∉ (map_to_list o).*1.
Proof.
  intros Hk (e & -> & He)%list_elem_of_fmap. destruct e as [k' v].
  apply elem_of_map_to_list in He. cbn in Hk. congruence.
Qed.

(** *** Reading sources *)

Lemma enumerable_own_properties_run h x source :
  in_store h source →
  enumerable_own_properties source (push h x)
  = Some (props_in h source, push h x).
Proof.
  destruct source as [| | | | |l]; try done.
  intros Hl. apply lookup_lt_is_Some_2 in Hl as [y Hy].
  unfold enumerable_own_properties, own_properties, props_in.
  by rewrite (lookup_old _ _ _ _ (objects_lookup _ _ _ Hy)), (objects_lookup _ _ _ Hy).
Qed.

(** [Object.assign] onto a target just allocated at the end of [h], from
    sources none of which has an own property named [__proto__]: only the
    target changes, and each property is copied. *)
Lemma assign_loop_new_target h sources :
  ∀ acc p,
    Forall (in_store h) sources →
    Forall (no_proto_key h) sources →
    for_of sources (fun nextSource =>
      from ← lift (enumerable_own_properties nextSource);
      for_of (map_to_list from) (fun '(key, propValue) =>
        set_property (length (objects h)) key propValue)) (push h (Object acc p))
    = Some (Return tt, push h (Object (overridden (props_in h <$> sources) acc) p)).
Proof.
  induction sources as [|source sources IH]; intros acc p Hs Hn; [done|].
  apply Forall_cons in Hs as [Hsource Hs]. apply Forall_cons in Hn as [Hnone Hn].
  cbn [for_of]. do 2 exc_bind. unfold lift at 1.
  rewrite enumerable_own_properties_run by done.
  rewrite (for_of_set_property_new (fun v _ => v)) by by apply not_elem_of_keys.
  rewrite assigned_copy. rewrite fmap_cons. by apply IH.
Qed.

Lemma Object_assign_new_target h sources acc p :
  Forall (in_store h) sources →
  Forall (no_proto_key h) sources →
  Object_assign (length (objects h)) sources (push h (Object acc p))
  = Some (Return (VObject (length (objects h))),
          push h (Object (overridden (props_in h <$> sources) acc) p)).
Proof.
  intros Hs Hn. unfold Object_assign. exc_bind.
  by rewrite assign_loop_new_target.
Qed.

(** *** The runs of the helpers *)

Lemma objectEntries_run h object o :
  h !! object = Some o →
  objectEntries object h = Some (map_to_list o, h).
Proof.
  intros Ho. unfold objectEntries, Object_entries.
  unfold mbind, Heap_bind, own_properties. by rewrite Ho.
Qed.

Lemma Object_fromEntries_run h entries :
  Object_fromEntries entries h
  = Some (length (objects h),
          push h (Object (assigned (fun v _ => v) ∅ entries) ObjectPrototype)).
Proof.
  unfold Object_fromEntries.
  heap_bind. rewrite alloc_run. heap_bind.
  by rewrite for_of_define_property_new.
Qed.

(** [objectMap] with a callback that computes its result from its
    arguments alone, on a bag without the key [__proto__]. *)
Lemma objectMap_run h object o (g : value → string → value) :
  h !! object = Some o →
  o !! "__proto__" = None →
  objectMap object (pure_callback g) h
  = Some (Return (length (objects h)),
          push h (Object (assigned g ∅ (map_to_list o)) ObjectPrototype)).
Proof.
  intros Ho Hkey. unfold objectMap.
  exc_bind. unfold lift at 1. rewrite alloc_run.
  exc_bind. unfold lift at 1. rewrite (objectEntries_run _ _ o) by by apply lookup_old.
  exc_bind.
  by rewrite for_of_pure_callback_new by by apply not_elem_of_keys.
Qed.

Lemma immutableUpdate_run h object rest :
  Forall (in_store h) (object :: rest) →
  Forall (no_proto_key h) (object :: rest) →
  immutableUpdate object rest h
  = Some (Return (VObject (length (objects h))),
          push h (Object (overridden (props_in h <$> object :: rest) ∅) ObjectPrototype)).
Proof.
  intros Hs Hn. unfold immutableUpdate.
  exc_bind. unfold lift at 1. rewrite alloc_run.
  by apply Object_assign_new_target.
Qed.

End StoreLemmas.

(* ===================================================================== *)
(** ** Mapping over a bag *)
(* ===================================================================== *)

Section Mapping.

Implicit Types (h : heap) (o acc : bag) (l : loc) (k : string).

Variable fn : value → string → HeapExc value.

(** The loop of [objectMap], for a callback that returns and leaves the
    objects of the store as they are: the object under construction, at
    the first location after [h], gains one property per entry. *)
Lemma objectMap_loop h entries :
  returns_and_preserves h fn →
  NoDup entries.*1 →
  "__proto__" ∉ entries.*1 →
  ∀ hi acc,
    preserves h hi →
    objects hi !! length (objects h) = Some (Object acc ObjectPrototype) →
    ∃ hf r,
      for_of entries (fun '(key, value) =>
        v ← fn value key;
        set_property (length (objects h)) key v) hi = Some (Return tt, hf) ∧
      preserves h hf ∧
      objects hf !! length (objects h) = Some (Object r ObjectPrototype) ∧
      (∀ k, k ∉ entries.*1 → r !! k = acc !! k) ∧
      (∀ k v, (k, v) ∈ entries →
              ∃ h0 w h1, preserves h h0 ∧ fn v k h0 = Some (Return w, h1) ∧
                         r !! k = Some w).
Proof.
  intros Hfn. induction entries as [|[key v] entries IH];
    intros Hnd Hkeys hi acc Hhi Hresult.
  - exists hi, acc. split_and!; try done. intros k v Hin. by apply elem_of_nil in Hin.
  - rewrite fmap_cons in Hnd, Hkeys. cbn [fst] in Hnd, Hkeys.
    apply NoDup_cons in Hnd as [Hfresh Hnd].
    apply not_elem_of_cons in Hkeys as [Hkey Hkeys].
    destruct (Hfn v key hi Hhi) as (w & h1 & Hcall & Hh1).
    pose proof (Hh1 _ _ Hresult) as Hresult1.
    set (h2 := replace (length (objects h))
                 (Object (<[key := w]> acc) ObjectPrototype) h1).
    assert (preserves h h2) as Hh2.
    { apply preserves_replace; [by eapply preserves_trans|].
      by apply lookup_ge_None_2. }
    assert (objects h2 !! length (objects h)
            = Some (Object (<[key := w]> acc) ObjectPrototype)) as Hresult2.
    { cbn. apply list_lookup_insert_eq. by eapply lookup_lt_Some. }
    destruct (IH Hnd Hkeys h2 _ Hh2 Hresult2) as (hf & r & Hrun & Hhf & Hr & Hother & Hin).
    exists hf, r. split_and!; try done.
    + cbn [for_of]. do 2 exc_bind. rewrite Hcall.
      rewrite (set_property_plain _ _ _ _ _ (not_eq_sym Hkey) Hresult1). exact Hrun.
    + intros k Hk. rewrite fmap_cons in Hk. apply not_elem_of_cons in Hk as [Hne Hk].
      rewrite (Hother k Hk). by rewrite lookup_insert_ne.
    + intros k v' [[= -> ->]|Hk]%elem_of_cons.
      * exists hi, w, h1. split_and!; try done.
        rewrite (Hother key Hfresh). apply lookup_insert_eq.
      * by apply Hin.
Qed.

End Mapping.

(** On the sample store: [{a: 1, b: 2}] mapped with doubling gives a new
    object [{a: 2, b: 4}], and the store is otherwise as before. *)
Example objectMap_double :
  objectMap 0 (pure_callback Sample.double) Sample.store
  = Some (Return 2, push Sample.store (Object Sample.a2_b4 ObjectPrototype)).
Proof. vm_compute. reflexivity. Qed.

(** The key [__proto__] of the input is assigned to the new object, whose
    prototype has the accessor of that name: the number is not taken as a
    prototype and no property is created. *)
Example objectMap_proto_key :
  objectMap 0 (pure_callback Sample.double) Sample.store_with_proto_key
  = Some (Return 1,
          push Sample.store_with_proto_key
            (Object (<["a" := VNumber 2]> ∅) ObjectPrototype)).
Proof. vm_compute. reflexivity. Qed.

(** C6, refuted as stated: on the bag with the keys [__proto__] and [a],
    [objectMap] returns a bag with the key [a] alone. *)
Lemma objectMap_drops_proto_key :
  ¬ maps_every_key Sample.store_with_proto_key 0 Sample.double.
Proof.
  intros H. destruct (H Sample.proto5_a1 eq_refl) as (result & h' & r & Hrun & Hr & _ & Hk).
  rewrite objectMap_proto_key in Hrun. injection Hrun as <- <-.
  vm_compute in Hr. injection Hr as <-.
  specialize (Hk "__proto__"). vm_compute in Hk. discriminate Hk.
Qed.

(** C6, amended: on a bag without the key [__proto__], and with a
    function that returns and leaves the objects of the store as they
    are, [objectMap] returns a new object, at a location the store did
    not hold, with exactly the keys of the input, each key [k] holding
    what the function returned on [input[k]] and [k] (which is
    [f (input[k]) k] when the function computes [f] from its arguments
    alone); every object that was in the store, the input among them,
    is unchanged after the call. *)
Theorem objectMap_same_keys (h : heap) (object : loc) (o : bag)
    (fn : value → string → HeapExc value) :
  h !! object = Some o →
  o !! "__proto__" = None →
  returns_and_preserves h fn →
  ∃ (result : loc) (h' : heap) (r : bag),
    objectMap object fn h = Some (Return result, h') ∧
    h !! result = None ∧
    h' !! result = Some r ∧
    dom r = dom o ∧
    (∀ k v, o !! k = Some v →
            ∃ h0 w h1, preserves h h0 ∧ fn v k h0 = Some (Return w, h1) ∧
                       r !! k = Some w) ∧
    (∀ f, (∀ v k h0, fn v k h0 = pure_callback f v k h0) →
          ∀ k, r !! k = (fun v => f v k) <$> o !! k) ∧
    h' !! object = Some o ∧
    (∀ l b, h !! l = Some b → h' !! l = Some b).
Proof.
  intros Ho Hkey Hfn.
  destruct (objectMap_loop fn h (map_to_list o) Hfn (NoDup_fst_map_to_list o)
              (not_elem_of_keys _ _ Hkey) (push h (Object ∅ ObjectPrototype)) ∅
              (preserves_push _ _) (objects_push_new _ _))
    as (hf & r & Hrun & Hhf & Hr & Hother & Hin).
  assert (∀ k v, o !! k = Some v →
            ∃ h0 w h1, preserves h h0 ∧ fn v k h0 = Some (Return w, h1) ∧
                       r !! k = Some w) as Hfields.
  { intros k v Hk. apply Hin. by apply elem_of_map_to_list. }
  exists (length (objects h)), hf, r. split_and!.
  - unfold objectMap. exc_bind. unfold lift at 1. rewrite alloc_run.
    exc_bind. unfold lift at 1.
    rewrite (objectEntries_run _ _ o) by by apply lookup_old.
    exc_bind. by rewrite Hrun.
  - apply fresh_location.
  - by apply objects_lookup in Hr.
  - apply set_eq. intros k. rewrite !elem_of_dom. split.
    + intros Hk. destruct (o !! k) as [v|] eqn:Hok; [done|].
      rewrite (Hother k (not_elem_of_keys _ _ Hok)), lookup_empty in Hk.
      by destruct Hk.
    + intros [v Hk]. destruct (Hfields k v Hk) as (_ & w & _ & _ & _ & ->). done.
  - exact Hfields.
  - intros f Hpure k. destruct (o !! k) as [v|] eqn:Hok; cbn.
    + destruct (Hfields k v Hok) as (h0 & w & h1 & _ & Hcall & ->).
      rewrite Hpure in Hcall. by injection Hcall as <- _.
    + by rewrite (Hother k (not_elem_of_keys _ _ Hok)), lookup_empty.
  - by eapply preserves_lookup.
  - intros l b. by apply preserves_lookup.
Qed.

Lemma pure_callback_returns_and_preserves h (f : value → string → value) :
  returns_and_preserves h (pure_callback f).
Proof. intros v k h0 _. exists (f v k), h0. split; [done|apply preserves_refl]. Qed.

Lemma box_returns_and_preserves h : returns_and_preserves h Sample.box.
Proof.
  intros v k h0 _. eexists _, _. split; [reflexivity|]. apply preserves_push.
Qed.

Lemma objectMap_same_keys_witness :
  (∃ (result : loc) (h' : heap) (r : bag),
     objectMap 0 (pure_callback Sample.double) Sample.store = Some (Return result, h') ∧
     h' !! result = Some r ∧
     dom r = dom Sample.a1_b2 ∧
     (∀ k, r !! k = (fun v => Sample.double v k) <$> Sample.a1_b2 !! k) ∧
     h' !! 0 = Some Sample.a1_b2) ∧
  (∃ (result : loc) (h' : heap) (r : bag),
     objectMap 0 Sample.box Sample.store = Some (Return result, h') ∧
     h' !! result = Some r ∧
     dom r = dom Sample.a1_b2 ∧
     h' !! 0 = Some Sample.a1_b2).
Proof.
  split.
  - destruct (objectMap_same_keys Sample.store 0 Sample.a1_b2
                (pure_callback Sample.double))
      as (result & h' & r & Hrun & _ & Hr & Hdom & _ & Hpure & Hobject & _).
    + reflexivity.
    + reflexivity.
    + apply pure_callback_returns_and_preserves.
    + exists result, h', r. split_and!; try done. by apply Hpure.
  - destruct (objectMap_same_keys Sample.store 0 Sample.a1_b2 Sample.box)
      as (result & h' & r & Hrun & _ & Hr & Hdom & _ & _ & Hobject & _).
    + reflexivity.
    + reflexivity.
    + apply box_returns_and_preserves.
    + by exists result, h', r.
Defined.

(* ===================================================================== *)
(** ** Entries and back *)
(* ===================================================================== *)

(** C7: for every bag in the store, building an object from the entry
    list [objectEntries] gives for it yields an object with the same
    properties as the bag: the same keys, each with the same value. The
    entry list holds each property of the bag once, the rebuilt object is
    another object, and the bag is left as it was. *)
Theorem objectEntries_round_trip (h : heap) (object : loc) (o : bag) :
  h !! object = Some o →
  ∃ (entries : list (string * value)) (copy : loc) (h' : heap),
    objectEntries object h = Some (entries, h) ∧
    Object_fromEntries entries h = Some (copy, h') ∧
    h' !! copy = Some o ∧
    (∀ k v, (k, v) ∈ entries ↔ o !! k = Some v) ∧
    NoDup entries.*1 ∧
    copy ≠ object ∧
    h' !! object = Some o.
Proof.
  intros Ho.
  exists (map_to_list o), (length (objects h)),
    (push h (Object (assigned (fun v _ => v) ∅ (map_to_list o)) ObjectPrototype)).
  split_and!.
  - by apply objectEntries_run.
  - apply Object_fromEntries_run.
  - rewrite assigned_copy_empty. apply (lookup_new h (Object o ObjectPrototype)).
  - intros k v. apply elem_of_map_to_list.
  - apply NoDup_fst_map_to_list.
  - apply lookup_in_store in Ho. lia.
  - by apply lookup_old.
Qed.

Lemma objectEntries_round_trip_witness :
  ∃ (entries : list (string * value)) (copy : loc) (h' : heap),
    objectEntries 1 Sample.store = Some (entries, Sample.store) ∧
    Object_fromEntries entries Sample.store = Some (copy, h') ∧
    h' !! copy = Some Sample.b3_c ∧
    (∀ k v, (k, v) ∈ entries ↔ Sample.b3_c !! k = Some v) ∧
    NoDup entries.*1 ∧
    copy ≠ 1 ∧
    h' !! 1 = Some Sample.b3_c.
Proof.
  apply (objectEntries_round_trip Sample.store 1 Sample.b3_c).
  reflexivity.
Defined.


(* ===================================================================== *)
(** ** Updating *)
(* ===================================================================== *)

(** On the sample store: [{a: 1, b: 2}] updated with [{b: 3, c: true}]
    gives a new object [{a: 1, b: 3, c: true}]. *)
Example immutableUpdate_override :
  immutableUpdate (VObject 0) [VObject 1] Sample.store
  = Some (Return (VObject 2),
          push Sample.store
            (Object (<["a" := VNumber 1]> Sample.b3_c) ObjectPrototype)).
Proof. vm_compute. reflexivity. Qed.

(** An own property named [__proto__] of the input is assigned to the new
    object, not defined on it: the copy lacks it. *)
Example immutableUpdate_proto_key :
  immutableUpdate (VObject 0) [] Sample.store_with_proto_key
  = Some (Return (VObject 1),
          push Sample.store_with_proto_key
            (Object (<["a" := VNumber 1]> ∅) ObjectPrototype)).
Proof. vm_compute. reflexivity. Qed.

(** C9, refuted as stated: the object with the fields [__proto__] and
    [a], updated with nothing, gives an object with the field [a] alone. *)
Lemma immutableUpdate_drops_proto_key :
  ¬ copies_every_field Sample.store_with_proto_key 0.
Proof.
  intros H. destruct (H Sample.proto5_a1 eq_refl) as (target & h' & Hrun & Hfields).
  rewrite immutableUpdate_proto_key in Hrun. injection Hrun as <- <-.
  apply (f_equal (fun b : option bag => b ≫= (.!! "__proto__"))) in Hfields.
  vm_compute in Hfields. discriminate Hfields.
Qed.

(** C9, amended: [immutableUpdate object rest], on values in the store
    none of which has an own field named [__proto__], returns a new
    object, at a location the store did not hold and so distinct from the
    input; each of its fields holds the value of the last among [object]
    and the members of [rest], in order, that has the field; every object
    that was in the store, the input among them, is unchanged; with no
    [rest] the new object has the fields of the input, with their
    values. *)
Theorem immutableUpdate_fresh_copy (h : heap) (object : value) (rest : list value) :
  Forall (in_store h) (object :: rest) →
  Forall (no_proto_key h) (object :: rest) →
  ∃ (target : loc) (h' : heap) (fields : bag),
    immutableUpdate object rest h = Some (Return (VObject target), h') ∧
    h !! target = None ∧
    VObject target ≠ object ∧
    h' !! target = Some fields ∧
    (∀ k, fields !! k
          = last (omap (fun source => props_in h source !! k) (object :: rest))) ∧
    (∀ l b, h !! l = Some b → h' !! l = Some b) ∧
    (rest = [] → fields = props_in h object) ∧
    (rest = [] → ∀ l o, object = VObject l → h !! l = Some o → fields = o).
Proof.
  intros Hs Hn.
  exists (length (objects h)),
    (push h (Object (overridden (props_in h <$> object :: rest) ∅) ObjectPrototype)),
    (overridden (props_in h <$> object :: rest) ∅).
  split_and!.
  - by apply immutableUpdate_run.
  - apply fresh_location.
  - intros <-. apply Forall_cons in Hs as [Hobject _]. cbn in Hobject. lia.
  - apply (lookup_new h (Object _ ObjectPrototype)).
  - intros k. rewrite overridden_empty_lookup. f_equal.
    apply omap_after_fmap.
  - intros l b. apply lookup_old.
  - intros ->. cbn. apply (right_id_L ∅ (∪)).
  - intros -> l o -> Ho. cbn. rewrite Ho. cbn. apply (right_id_L ∅ (∪)).
Qed.

Lemma immutableUpdate_fresh_copy_witness :
  (∃ (target : loc) (h' : heap) (fields : bag),
     immutableUpdate (VObject 0) [VObject 1] Sample.store
       = Some (Return (VObject target), h') ∧
     Sample.store !! target = None ∧
     VObject target ≠ VObject 0 ∧
     h' !! target = Some fields ∧
     (∀ k, fields !! k
           = last (omap (fun source => props_in Sample.store source !! k)
                     [VObject 0; VObject 1])) ∧
     (∀ l b, Sample.store !! l = Some b → h' !! l = Some b)) ∧
  (∃ (target : loc) (h' : heap) (fields : bag),
     immutableUpdate (VObject 0) [] Sample.store = Some (Return (VObject target), h') ∧
     h' !! target = Some fields ∧
     fields = props_in Sample.store (VObject 0) ∧
     fields = Sample.a1_b2).
Proof.
  split.
  - destruct (immutableUpdate_fresh_copy Sample.store (VObject 0) [VObject 1])
      as (target & h' & fields & Hrun & Hfresh & Hne & Hfields & Hkeys & Hold & _).
    + repeat constructor.
    + repeat constructor.
    + by exists target, h', fields.
  - destruct (immutableUpdate_fresh_copy Sample.store (VObject 0) [])
      as (target & h' & fields & Hrun & _ & _ & Hfields & _ & _ & Hcopy & Hsame).
    + repeat constructor.
    + repeat constructor.
    + exists target, h', fields. split_and!; try done.
      * by apply Hcopy.
      * by apply (Hsame eq_refl 0).
Defined.
(* ===================================================================== *)
(** ** Value lists *)
(* ===================================================================== *)

Section ValueLists.

Implicit Types (h : heap) (o : bag) (l : loc) (k : string).

Lemma Object_values_run h object o :
  h !! object = Some o →
  Object_values object h = Some ((map_to_list o).*2, h).
Proof.
  intros Ho. unfold Object_values. heap_bind.
  unfold own_properties. by rewrite Ho.
Qed.

Lemma elem_of_values o (v : value) :
  v ∈ (map_to_list o).*2 ↔ ∃ k, o !! k = Some v.
Proof.
  rewrite list_elem_of_fmap. split.
  - intros [[k v'] [-> Hin]]. exists k. by apply elem_of_map_to_list.
  - intros [k Hk]. exists (k, v). split; [done|]. by apply elem_of_map_to_list.
Qed.

(** The bag an [objectMap] loop builds, as an indexed map over the input. *)
Lemma assigned_empty_imap (g : value → string → value) o :
  assigned g ∅ (map_to_list o) = map_imap (fun k v => Some (g v k)) o.
Proof.
  apply map_eq. intros k.
  rewrite assigned_empty_lookup, map_lookup_imap. by destruct (o !! k).
Qed.

(** Its entries are the entries of the input, transformed, in some order. *)
Lemma assigned_empty_entries (g : value → string → value) o :
  map_to_list (assigned g ∅ (map_to_list o))
  ≡ₚ (fun e => (e.1, g e.2 e.1)) <$> map_to_list o.
Proof.
  apply NoDup_Permutation.
  - apply NoDup_map_to_list.
  - apply (NoDup_fmap_1 fst). rewrite <- list_fmap_compose.
    apply NoDup_fst_map_to_list.
  - intros [k w]. rewrite elem_of_map_to_list, assigned_empty_lookup.
    rewrite list_elem_of_fmap. split.
    + destruct (o !! k) as [v|] eqn:Hk; [|done]. intros [= <-].
      exists (k, v). split; [done|]. by apply elem_of_map_to_list.
    + intros [[k' v] [[= -> ->] Hin]]. apply elem_of_map_to_list in Hin.
      by rewrite Hin.
Qed.

End ValueLists.

(** X1: [objectValues] leaves the store as it is and returns the values
    of the bag: a value is listed exactly when some key holds it, there
    are as many values as keys, and the list is the list of second
    components of what [objectEntries] returns for the same object. *)
Theorem objectValues_members (h : heap) (object : loc) (o : bag) :
  h !! object = Some o →
  ∃ (values : list value) (entries : list (string * value)),
    objectValues object h = Some (values, h) ∧
    objectEntries object h = Some (entries, h) ∧
    values = entries.*2 ∧
    length values = size o ∧
    (∀ v, v ∈ values ↔ ∃ k, o !! k = Some v).
Proof.
  intros Ho. exists (map_to_list o).*2, (map_to_list o).
  split_and!.
  - by apply Object_values_run.
  - by apply objectEntries_run.
  - done.
  - by rewrite length_fmap, length_map_to_list.
  - apply elem_of_values.
Qed.

Lemma objectValues_members_witness :
  ∃ (values : list value) (entries : list (string * value)),
    objectValues 1 Sample.store = Some (values, Sample.store) ∧
    objectEntries 1 Sample.store = Some (entries, Sample.store) ∧
    values = entries.*2 ∧
    length values = size Sample.b3_c ∧
    (∀ v, v ∈ values ↔ ∃ k, Sample.b3_c !! k = Some v).
Proof.
  apply (objectValues_members Sample.store 1 Sample.b3_c). reflexivity.
Defined.

(** X2: [getObjectValuesAsUnion] returns, for every object of the store,
    the very list [objectValues] returns, leaves the store as it is, and
    lists a value exactly when some key of the object holds it. *)
Theorem getObjectValuesAsUnion_members (h : heap) (obj : loc) (o : bag) :
  h !! obj = Some o →
  ∃ values : list value,
    getObjectValuesAsUnion obj h = Some (values, h) ∧
    objectValues obj h = Some (values, h) ∧
    (∀ v, v ∈ values ↔ ∃ k, o !! k = Some v).
Proof.
  intros Ho. exists (map_to_list o).*2.
  split_and!.
  - by apply Object_values_run.
  - by apply Object_values_run.
  - apply elem_of_values.
Qed.

Lemma getObjectValuesAsUnion_members_witness :
  ∃ values : list value,
    getObjectValuesAsUnion 0 Sample.store = Some (values, Sample.store) ∧
    objectValues 0 Sample.store = Some (values, Sample.store) ∧
    (∀ v, v ∈ values ↔ ∃ k, Sample.a1_b2 !! k = Some v).
Proof.
  apply (getObjectValuesAsUnion_members Sample.store 0 Sample.a1_b2). reflexivity.
Defined.

(** X3: on a bag without the key [__proto__], the values of the object
    [objectMap] builds are, up to order, the function applied to each
    entry of the input: [objectValues] after [objectMap] lists
    [fn value key] once for each entry [(key, value)] that
    [objectEntries] lists for the input. The input is unchanged. *)
Theorem objectValues_objectMap (h : heap) (object : loc) (o : bag)
    (fn : value → string → value) :
  h !! object = Some o →
  o !! "__proto__" = None →
  ∃ (values : list value) (h' : heap) (entries : list (string * value)),
    (result ← objectMap object (pure_callback fn); lift (objectValues result)) h
      = Some (Return values, h') ∧
    objectEntries object h = Some (entries, h) ∧
    values ≡ₚ (fun e => fn e.2 e.1) <$> entries ∧
    h' !! object = Some o.
Proof.
  intros Ho Hkey.
  exists (map_to_list (assigned fn ∅ (map_to_list o))).*2,
    (push h (Object (assigned fn ∅ (map_to_list o)) ObjectPrototype)),
    (map_to_list o).
  split_and!.
  - exc_bind. rewrite (objectMap_run _ _ o) by done.
    unfold lift, objectValues.
    by rewrite (Object_values_run _ _ _ (lookup_new h (Object _ ObjectPrototype))).
  - by apply objectEntries_run.
  - rewrite assigned_empty_entries, <- list_fmap_compose. done.
  - by apply lookup_old.
Qed.

Lemma objectValues_objectMap_witness :
  ∃ (values : list value) (h' : heap) (entries : list (string * value)),
    (result ← objectMap 0 (pure_callback Sample.double); lift (objectValues result))
      Sample.store = Some (Return values, h') ∧
    objectEntries 0 Sample.store = Some (entries, Sample.store) ∧
    values ≡ₚ (fun e => Sample.double e.2 e.1) <$> entries ∧
    h' !! 0 = Some Sample.a1_b2.
Proof.
  apply (objectValues_objectMap Sample.store 0 Sample.a1_b2 Sample.double);
    reflexivity.
Defined.

(* ===================================================================== *)
(** ** Composing the object helpers *)
(* ===================================================================== *)

Section Composition.

Implicit Types (h : heap) (o acc : bag) (l : loc) (k : string).

Lemma in_store_grows h t (v : value) : in_store h v → in_store (push h t) v.
Proof. destruct v; cbn; try done. rewrite length_app. lia. Qed.

Lemma props_in_grows h t (v : value) :
  in_store h v → props_in (push h t) v = props_in h v.
Proof.
  destruct v as [| | | | |l]; cbn; try done.
  intros Hl. rewrite !lookup_unfold. cbn. by rewrite lookup_app_l.
Qed.

Lemma props_in_new h t : props_in (push h t) (VObject (length (objects h))) = props t.
Proof. cbn. by rewrite lookup_new. Qed.

Lemma overridden_app (bs1 bs2 : list bag) acc :
  overridden (bs1 ++ bs2) acc = overridden bs2 (overridden bs1 acc).
Proof. apply foldl_app. Qed.

(** A key that no source has, and the accumulated bag neither, is not
    gained. *)
Lemma overridden_lookup_None (sources : list bag) k :
  ∀ acc, Forall (fun from => from !! k = None) sources →
         acc !! k = None → overridden sources acc !! k = None.
Proof.
  induction sources as [|from sources IH]; intros acc Hs Hacc; [done|].
  apply Forall_cons in Hs as [Hfrom Hs]. cbn. apply IH; [done|].
  by rewrite lookup_union, Hfrom, Hacc.
Qed.

Lemma no_proto_key_overridden h (sources : list value) :
  Forall (no_proto_key h) sources →
  overridden (props_in h <$> sources) ∅ !! "__proto__" = None.
Proof.
  intros Hs. apply overridden_lookup_None; [|done].
  apply Forall_fmap. eapply Forall_impl; [exact Hs|]. done.
Qed.

(** A source without properties leaves the accumulated bag as it is. *)
Lemma props_in_primitive h (v : value) : has_properties v = false → props_in h v = ∅.
Proof. by destruct v. Qed.

Lemma overridden_filter h (sources : list value) :
  ∀ acc,
    overridden (props_in h <$> filter (fun v => has_properties v) sources) acc
    = overridden (props_in h <$> sources) acc.
Proof.
  induction sources as [|v sources IH]; intros acc; [done|].
  rewrite filter_cons. destruct (has_properties v) eqn:Hv; cbn.
  - apply IH.
  - rewrite IH. by rewrite (props_in_primitive _ _ Hv), (left_id_L ∅ (∪)).
Qed.

Lemma Forall_filter_has_properties (P : value → Prop) (sources : list value) :
  Forall P sources → Forall P (filter (fun v => has_properties v) sources).
Proof.
  intros Hs. apply Forall_forall. intros v Hv.
  apply list_elem_of_filter in Hv as [_ Hv].
  by eapply Forall_forall in Hs.
Qed.

End Composition.

(** X4: on a bag without the key [__proto__], mapping twice is mapping
    once with the composite: [objectMap] with [f] followed by [objectMap]
    with [g] on its result builds an object whose fields are those of a
    single [objectMap] with [(v, k) => g(f(v, k), k)]; the input is
    unchanged. *)
Theorem objectMap_compose (h : heap) (object : loc) (o : bag)
    (f g : value → string → value) :
  h !! object = Some o →
  o !! "__proto__" = None →
  ∃ (result : loc) (h' : heap) (r : bag),
    (mid ← objectMap object (pure_callback f); objectMap mid (pure_callback g)) h
      = Some (Return result, h') ∧
    h' !! result = Some r ∧
    (∀ k, r !! k = (fun v => g (f v k) k) <$> o !! k) ∧
    (∃ (single : loc) (h1 : heap),
        objectMap object (pure_callback (fun v k => g (f v k) k)) h
          = Some (Return single, h1) ∧
        h1 !! single = Some r) ∧
    h' !! object = Some o.
Proof.
  intros Ho Hkey.
  set (b1 := assigned f ∅ (map_to_list o)).
  set (h1 := push h (Object b1 ObjectPrototype)).
  assert (b1 !! "__proto__" = None) as Hkey1.
  { unfold b1. by rewrite assigned_empty_lookup, Hkey. }
  assert (∀ k, assigned g ∅ (map_to_list b1) !! k
               = (fun v => g (f v k) k) <$> o !! k) as Hfields.
  { intros k. unfold b1. rewrite !assigned_empty_lookup. by destruct (o !! k). }
  exists (length (objects h1)),
    (push h1 (Object (assigned g ∅ (map_to_list b1)) ObjectPrototype)),
    (assigned g ∅ (map_to_list b1)).
  split_and!.
  - exc_bind. rewrite (objectMap_run _ _ o) by done.
    apply objectMap_run; [|done]. apply (lookup_new h (Object b1 ObjectPrototype)).
  - apply (lookup_new h1 (Object _ ObjectPrototype)).
  - exact Hfields.
  - exists (length (objects h)),
      (push h (Object (assigned (fun v k => g (f v k) k) ∅ (map_to_list o))
                 ObjectPrototype)).
    split; [by apply objectMap_run|].
    rewrite lookup_new. cbn. f_equal. apply map_eq. intros k.
    by rewrite Hfields, assigned_empty_lookup.
  - by apply lookup_old, lookup_old.
Qed.

Lemma objectMap_compose_witness :
  ∃ (result : loc) (h' : heap) (r : bag),
    (mid ← objectMap 0 (pure_callback Sample.double);
     objectMap mid (pure_callback Sample.double)) Sample.store
      = Some (Return result, h') ∧
    h' !! result = Some r ∧
    (∀ k, r !! k
          = (fun v => Sample.double (Sample.double v k) k) <$> Sample.a1_b2 !! k) ∧
    (∃ (single : loc) (h1 : heap),
        objectMap 0 (pure_callback (fun v k => Sample.double (Sample.double v k) k))
          Sample.store = Some (Return single, h1) ∧
        h1 !! single = Some r) ∧
    h' !! 0 = Some Sample.a1_b2.
Proof.
  apply (objectMap_compose Sample.store 0 Sample.a1_b2 Sample.double Sample.double);
    reflexivity.
Defined.

(** X5: on a bag without the key [__proto__], [objectMap] with the
    identity function and [immutableUpdate] with no further argument make
    the same copy: each returns a new object with exactly the fields of
    the input, values included (so an object held in a field is shared
    with the input, not copied). *)
Theorem objectMap_identity_copies (h : heap) (object : loc) (o : bag) :
  h !! object = Some o →
  o !! "__proto__" = None →
  ∃ (mapped updated : loc) (h1 h2 : heap),
    objectMap object (pure_callback (fun v _ => v)) h = Some (Return mapped, h1) ∧
    immutableUpdate (VObject object) [] h = Some (Return (VObject updated), h2) ∧
    h1 !! mapped = Some o ∧
    h2 !! updated = Some o ∧
    mapped ≠ object ∧ updated ≠ object.
Proof.
  intros Ho Hkey. pose proof (lookup_in_store _ _ _ Ho) as Hlt.
  exists (length (objects h)), (length (objects h)),
    (push h (Object (assigned (fun v _ => v) ∅ (map_to_list o)) ObjectPrototype)),
    (push h (Object (overridden (props_in h <$> [VObject object]) ∅) ObjectPrototype)).
  split_and!.
  - by apply objectMap_run.
  - apply immutableUpdate_run; repeat constructor; [done|].
    unfold no_proto_key. cbn. by rewrite Ho.
  - by rewrite assigned_copy_empty, lookup_new.
  - rewrite lookup_new. cbn. rewrite Ho. cbn. by rewrite (right_id_L ∅ (∪)).
  - lia.
  - lia.
Qed.

Lemma objectMap_identity_copies_witness :
  ∃ (mapped updated : loc) (h1 h2 : heap),
    objectMap 1 (pure_callback (fun v _ => v)) Sample.store = Some (Return mapped, h1) ∧
    immutableUpdate (VObject 1) [] Sample.store = Some (Return (VObject updated), h2) ∧
    h1 !! mapped = Some Sample.b3_c ∧
    h2 !! updated = Some Sample.b3_c ∧
    mapped ≠ 1 ∧ updated ≠ 1.
Proof.
  apply (objectMap_identity_copies Sample.store 1 Sample.b3_c); reflexivity.
Defined.

(** X6: the object [immutableUpdate] returns is independent of its input:
    for arguments without an own field named [__proto__] and a key other
    than [__proto__], assigning to the key on the result leaves the input
    object as it was, and assigning to it on the input leaves the result
    as it was. *)
Theorem immutableUpdate_independent (h : heap) (l : loc) (o : bag)
    (rest : list value) (key : string) (v : value) :
  h !! l = Some o →
  Forall (in_store h) rest →
  Forall (no_proto_key h) (VObject l :: rest) →
  key ≠ "__proto__" →
  ∃ (target : loc) (h' : heap) (fields : bag),
    immutableUpdate (VObject l) rest h = Some (Return (VObject target), h') ∧
    h' !! target = Some fields ∧
    (∃ h'', set_property target key v h' = Some (Return tt, h'') ∧
            h'' !! target = Some (<[key := v]> fields) ∧
            h'' !! l = Some o) ∧
    (∃ h'', set_property l key v h' = Some (Return tt, h'') ∧
            h'' !! l = Some (<[key := v]> o) ∧
            h'' !! target = Some fields).
Proof.
  intros Ho Hrest Hnone Hkey. pose proof (lookup_in_store _ _ _ Ho) as Hlt.
  destruct (lookup_objects _ _ _ Ho) as (x & Hx & <-).
  set (fields := overridden (props_in h <$> VObject l :: rest) ∅).
  exists (length (objects h)), (push h (Object fields ObjectPrototype)), fields.
  split_and!.
  - apply immutableUpdate_run; [by constructor|done].
  - apply (lookup_new h (Object _ ObjectPrototype)).
  - exists (push h (Object (<[key := v]> fields) ObjectPrototype)).
    rewrite (set_property_plain _ _ (Object fields ObjectPrototype));
      [|done|apply objects_push_new].
    rewrite replace_new. split_and!; [done| |by apply lookup_old].
    apply (lookup_new h (Object _ ObjectPrototype)).
  - exists (replace l (Object (<[key := v]> (props x)) (proto x))
              (push h (Object fields ObjectPrototype))).
    rewrite (set_property_plain _ _ x); [|done|by apply objects_push_old].
    split_and!; [done| |].
    + rewrite lookup_unfold. cbn. rewrite list_lookup_insert_eq; [done|].
      rewrite length_app. lia.
    + rewrite lookup_unfold. cbn. rewrite list_lookup_insert_ne by lia.
      by rewrite list_lookup_middle.
Qed.

Lemma immutableUpdate_independent_witness :
  ∃ (target : loc) (h' : heap) (fields : bag),
    immutableUpdate (VObject 0) [VObject 1] Sample.store
      = Some (Return (VObject target), h') ∧
    h' !! target = Some fields ∧
    (∃ h'', set_property target "a" VNull h' = Some (Return tt, h'') ∧
            h'' !! target = Some (<["a" := VNull]> fields) ∧
            h'' !! 0 = Some Sample.a1_b2) ∧
    (∃ h'', set_property 0 "a" VNull h' = Some (Return tt, h'') ∧
            h'' !! 0 = Some (<["a" := VNull]> Sample.a1_b2) ∧
            h'' !! target = Some fields).
Proof.
  apply (immutableUpdate_independent Sample.store 0 Sample.a1_b2 [VObject 1] "a" VNull).
  - reflexivity.
  - repeat constructor.
  - repeat constructor.
  - discriminate.
Defined.

(** X7: for arguments without an own field named [__proto__], updating
    in two steps is updating once: [immutableUpdate] applied to the
    result of [immutableUpdate object rest1] with [rest2] builds an
    object with the fields of [immutableUpdate object (rest1 ++ rest2)]. *)
Theorem immutableUpdate_compose (h : heap) (object : value)
    (rest1 rest2 : list value) :
  Forall (in_store h) (object :: rest1 ++ rest2) →
  Forall (no_proto_key h) (object :: rest1 ++ rest2) →
  ∃ (mid final once : loc) (h1 h2 h3 : heap) (fields : bag),
    immutableUpdate object rest1 h = Some (Return (VObject mid), h1) ∧
    immutableUpdate (VObject mid) rest2 h1 = Some (Return (VObject final), h2) ∧
    immutableUpdate object (rest1 ++ rest2) h = Some (Return (VObject once), h3) ∧
    h2 !! final = Some fields ∧
    h3 !! once = Some fields.
Proof.
  intros Hs Hn.
  apply Forall_cons in Hs as [Hobject Hs]. apply Forall_app in Hs as [Hs1 Hs2].
  apply Forall_cons in Hn as [Hnobject Hn]. apply Forall_app in Hn as [Hn1 Hn2].
  set (f1 := overridden (props_in h <$> object :: rest1) ∅).
  set (fields := overridden (props_in h <$> object :: rest1 ++ rest2) ∅).
  set (h1 := push h (Object f1 ObjectPrototype)).
  assert (f1 !! "__proto__" = None) as Hf1.
  { apply no_proto_key_overridden. by constructor. }
  exists (length (objects h)), (length (objects h1)), (length (objects h)),
    h1, (push h1 (Object fields ObjectPrototype)),
    (push h (Object fields ObjectPrototype)), fields.
  split_and!.
  - apply immutableUpdate_run; by constructor.
  - rewrite immutableUpdate_run.
    + do 4 f_equal. unfold fields.
      rewrite fmap_cons. unfold h1 at 1. rewrite props_in_new. cbn [props overridden foldl].
      rewrite (right_id_L ∅ (∪)).
      rewrite (Forall_fmap_ext_1 (props_in h1) (props_in h) rest2).
      * unfold f1.
        change (object :: rest1 ++ rest2) with ((object :: rest1) ++ rest2).
        by rewrite fmap_app, overridden_app.
      * eapply Forall_impl; [exact Hs2|]. intros v Hv. by apply props_in_grows.
    + constructor.
      * cbn. rewrite length_app. cbn. lia.
      * eapply Forall_impl; [exact Hs2|]. intros v. apply in_store_grows.
    + constructor.
      * unfold no_proto_key, h1. by rewrite props_in_new.
      * apply Forall_forall. intros v Hv. unfold no_proto_key, h1.
        pose proof (proj1 (Forall_forall _ _) Hs2 v Hv) as Hin.
        pose proof (proj1 (Forall_forall _ _) Hn2 v Hv) as Hnone.
        by rewrite props_in_grows.
  - apply immutableUpdate_run; constructor; try done; by apply Forall_app.
  - apply (lookup_new h1 (Object _ ObjectPrototype)).
  - apply (lookup_new h (Object _ ObjectPrototype)).
Qed.

Lemma immutableUpdate_compose_witness :
  ∃ (mid final once : loc) (h1 h2 h3 : heap) (fields : bag),
    immutableUpdate (VObject 0) [VObject 1] Sample.store = Some (Return (VObject mid), h1) ∧
    immutableUpdate (VObject mid) [VObject 0] h1 = Some (Return (VObject final), h2) ∧
    immutableUpdate (VObject 0) ([VObject 1] ++ [VObject 0]) Sample.store
      = Some (Return (VObject once), h3) ∧
    h2 !! final = Some fields ∧
    h3 !! once = Some fields.
Proof.
  apply (immutableUpdate_compose Sample.store (VObject 0) [VObject 1] [VObject 0]);
    repeat constructor.
Defined.

(** X8: arguments without properties change nothing: for arguments
    without an own field named [__proto__], undefined, null, Booleans and
    Numbers among the arguments of [immutableUpdate] can be dropped
    without changing the fields of the result, and when every member of
    [rest] is one of these the result has the fields of [object] alone. *)
Theorem immutableUpdate_skips_primitives (h : heap) (object : value)
    (rest : list value) :
  Forall (in_store h) (object :: rest) →
  Forall (no_proto_key h) (object :: rest) →
  ∃ (target target' : loc) (h1 h2 : heap) (fields : bag),
    immutableUpdate object rest h = Some (Return (VObject target), h1) ∧
    immutableUpdate object (filter (fun v => has_properties v) rest) h
      = Some (Return (VObject target'), h2) ∧
    h1 !! target = Some fields ∧
    h2 !! target' = Some fields ∧
    (Forall (fun v => has_properties v = false) rest → fields = props_in h object).
Proof.
  intros Hs Hn. apply Forall_cons in Hs as [Hobject Hrest].
  apply Forall_cons in Hn as [Hnobject Hnrest].
  set (fields := overridden (props_in h <$> object :: rest) ∅).
  exists (length (objects h)), (length (objects h)),
    (push h (Object fields ObjectPrototype)),
    (push h (Object fields ObjectPrototype)), fields.
  split_and!.
  - apply immutableUpdate_run; by constructor.
  - rewrite immutableUpdate_run.
    + do 4 f_equal. unfold fields. rewrite !fmap_cons. cbn [overridden foldl].
      apply (overridden_filter h rest).
    + constructor; [done|]. by apply Forall_filter_has_properties.
    + constructor; [done|]. by apply Forall_filter_has_properties.
  - apply (lookup_new h (Object _ ObjectPrototype)).
  - apply (lookup_new h (Object _ ObjectPrototype)).
  - intros Hprim. unfold fields. rewrite fmap_cons. cbn [overridden foldl].
    rewrite (right_id_L ∅ (∪)).
    clear Hrest Hnrest fields.
    induction Hprim as [|v rest' Hv _ IH]; [done|].
    rewrite fmap_cons. cbn [foldl].
    by rewrite (props_in_primitive _ _ Hv), (left_id_L ∅ (∪)).
Qed.

Lemma immutableUpdate_skips_primitives_witness :
  ∃ (target target' : loc) (h1 h2 : heap) (fields : bag),
    immutableUpdate (VObject 0) [VNull; VUndefined; VNumber 7] Sample.store
      = Some (Return (VObject target), h1) ∧
    immutableUpdate (VObject 0)
      (filter (fun v => has_properties v) [VNull; VUndefined; VNumber 7]) Sample.store
      = Some (Return (VObject target'), h2) ∧
    h1 !! target = Some fields ∧
    h2 !! target' = Some fields ∧
    fields = props_in Sample.store (VObject 0).
Proof.
  destruct (immutableUpdate_skips_primitives Sample.store (VObject 0)
              [VNull; VUndefined; VNumber 7])
    as (target & target' & h1 & h2 & fields & Hrun & Hrun' & Hfields & Hfields' & Hsame).
  - repeat constructor.
  - repeat constructor.
  - exists target, target', h1, h2, fields. split_and!; try done.
    apply Hsame. repeat constructor.
Defined.

(* ===================================================================== *)
(** ** References stay within the store *)
(* ===================================================================== *)

Section ClosedStore.

Implicit Types (h : heap) (o : bag) (t : object) (l : loc) (k : string).

Lemma string_properties_values (s : string) :
  ∀ i k (v : value), string_properties i s !! k = Some v → ∃ c, v = VString c.
Proof.
  induction s as [|c s IH]; intros i k v; cbn.
  - by rewrite lookup_empty.
  - rewrite lookup_insert. case_decide.
    + intros [= <-]. by eexists.
    + apply IH.
Qed.

Lemma props_in_closed h (source : value) k (v : value) :
  closed h → in_store h source → props_in h source !! k = Some v → in_store h v.
Proof.
  intros [Hclosed _] Hsource. unfold props_in.
  destruct source as [| | | |s|l]; try by rewrite lookup_empty.
  - intros [c ->]%string_properties_values. done.
  - destruct (h !! l) as [b|] eqn:Hl; cbn; [|by rewrite lookup_empty].
    intros Hk. by eapply Hclosed.
Qed.

Lemma closed_push h t : closed h → refers_within h t → closed (push h t).
Proof.
  intros [Hprops Hprotos] [Htprops Htproto]. split.
  - intros l b k v Hl Hk. apply in_store_grows.
    apply lookup_objects in Hl as (x & Hx & <-).
    apply lookup_app_Some in Hx as [Hx|[_ Hx]].
    + eapply Hprops; [by apply objects_lookup|done].
    + apply list_lookup_singleton_Some in Hx as [_ <-]. by eapply Htprops.
  - intros l x p Hx Hp. cbn. rewrite length_app. cbn.
    apply lookup_app_Some in Hx as [Hx|[_ Hx]].
    + pose proof (Hprotos _ _ _ Hx Hp). lia.
    + apply list_lookup_singleton_Some in Hx as [_ <-].
      pose proof (Htproto _ Hp). lia.
Qed.

(** In a closed store no prototype chain leads to an object that is
    allocated later. *)
Lemma chain_reaches_new h t fuel :
  closed h →
  ∀ p, (∀ q, p = PrototypeAt q → q < length (objects h)) →
       chain_reaches fuel (push h t) (length (objects h)) p = false.
Proof.
  intros [_ Hprotos]. induction fuel as [|fuel IH]; intros p Hp.
  - destruct p as [| |q]; cbn; try done.
    pose proof (Hp q eq_refl). case_decide; [lia|done].
  - destruct p as [| |q]; cbn; try done.
    pose proof (Hp q eq_refl) as Hq. case_decide; [lia|].
    apply lookup_lt_is_Some_2 in Hq as [x Hx].
    rewrite (lookup_app_l_Some _ _ _ _ Hx). apply IH.
    intros q' Hq'. by eapply Hprotos.
Qed.

Lemma set_prototype_new h t p :
  closed h →
  (∀ q, p = PrototypeAt q → q < length (objects h)) →
  ∃ t', set_prototype (length (objects h)) p (push h t) = Some (Return tt, push h t') ∧
        props t' = props t ∧ (proto t' = p ∨ t' = t).
Proof.
  intros Hclosed Hp. unfold set_prototype. rewrite objects_push_new.
  case_decide as Hsame.
  - exists t. by split_and!; [|done|right].
  - rewrite chain_reaches_new by done. rewrite replace_new.
    eexists. split_and!; [done|done|by left].
Qed.

(** One assignment to the object under construction keeps it well
    formed, and does not throw. *)
Lemma set_property_new h t key (v : value) :
  closed h → refers_within h t → in_store h v →
  ∃ t', set_property (length (objects h)) key v (push h t)
        = Some (Return tt, push h t') ∧ refers_within h t'.
Proof.
  intros Hclosed [Hprops Hproto] Hv. unfold set_property.
  rewrite objects_push_new.
  destruct (bool_decide (key = "__proto__") && bool_decide (props t !! key = None)
            && finds_proto_accessor (length (objects (push h t))) (push h t) (proto t)).
  - destruct v as [| | | | |q]; cbn [proto_setter];
      try (exists t; by split).
    + destruct (set_prototype_new h t NullPrototype Hclosed) as (t' & -> & Hp' & Hcase);
        [done|].
      exists t'. split; [done|]. split.
      * intros k w. rewrite Hp'. apply Hprops.
      * destruct Hcase as [-> | ->]; [done|exact Hproto].
    + destruct (set_prototype_new h t (PrototypeAt q) Hclosed) as (t' & -> & Hp' & Hcase).
      { by intros ? [= <-]. }
      exists t'. split; [done|]. split.
      * intros k w. rewrite Hp'. apply Hprops.
      * destruct Hcase as [-> | ->]; [by intros ? [= <-]|exact Hproto].
  - rewrite replace_new. eexists. split; [done|]. split; cbn.
    + intros k w. rewrite lookup_insert. case_decide.
      * by intros [= <-].
      * apply Hprops.
    + exact Hproto.
Qed.

Lemma assign_entries_closed h entries :
  closed h →
  Forall (fun e : string * value => in_store h e.2) entries →
  ∀ t, refers_within h t →
       ∃ t', for_of entries (fun '(key, propValue) =>
               set_property (length (objects h)) key propValue) (push h t)
             = Some (Return tt, push h t') ∧ refers_within h t'.
Proof.
  intros Hclosed. induction entries as [|[key v] entries IH]; intros Hes t Ht.
  - by exists t.
  - apply Forall_cons in Hes as [Hv Hes].
    destruct (set_property_new h t key v Hclosed Ht Hv) as (t1 & Hset & Ht1).
    destruct (IH Hes t1 Ht1) as (t' & Hrun & Ht').
    exists t'. split; [|done]. cbn [for_of]. exc_bind. by rewrite Hset.
Qed.

Lemma assign_sources_closed h sources :
  closed h →
  Forall (in_store h) sources →
  ∀ t, refers_within h t →
       ∃ t', for_of sources (fun nextSource =>
               from ← lift (enumerable_own_properties nextSource);
               for_of (map_to_list from) (fun '(key, propValue) =>
                 set_property (length (objects h)) key propValue)) (push h t)
             = Some (Return tt, push h t') ∧ refers_within h t'.
Proof.
  intros Hclosed. induction sources as [|source sources IH]; intros Hs t Ht.
  - by exists t.
  - apply Forall_cons in Hs as [Hsource Hs].
    destruct (assign_entries_closed h (map_to_list (props_in h source)) Hclosed) with t
      as (t1 & Hinner & Ht1); [|done|].
    { apply Forall_forall. intros [k v] Hin. apply elem_of_map_to_list in Hin.
      by eapply props_in_closed. }
    destruct (IH Hs t1 Ht1) as (t' & Hrun & Ht').
    exists t'. split; [|done]. cbn [for_of]. do 2 exc_bind. unfold lift at 1.
    rewrite enumerable_own_properties_run by done. by rewrite Hinner.
Qed.

Lemma immutableUpdate_run_closed h object rest :
  closed h →
  Forall (in_store h) (object :: rest) →
  ∃ t, immutableUpdate object rest h
       = Some (Return (VObject (length (objects h))), push h t) ∧ refers_within h t.
Proof.
  intros Hclosed Hs.
  destruct (assign_sources_closed h (object :: rest) Hclosed Hs
              (Object ∅ ObjectPrototype)) as (t & Hrun & Ht).
  { split; [intros k v; cbn; by rewrite lookup_empty|done]. }
  exists t. split; [|done]. unfold immutableUpdate, Object_assign.
  exc_bind. unfold lift at 1. rewrite alloc_run. exc_bind. by rewrite Hrun.
Qed.

Lemma sample_store_closed : closed Sample.store.
Proof.
  split.
  - intros l o k v Hl Hk.
    assert (∀ e, e ∈ map_to_list o → in_store Sample.store e.2) as Hall.
    { destruct l as [|[|l]]; cbn in Hl; [| |done]; injection Hl as <-;
        intros e He; vm_compute in He;
        repeat (apply elem_of_cons in He as [->|He]; [done|]);
        by apply elem_of_nil in He. }
    apply elem_of_map_to_list in Hk. by apply Hall in Hk.
  - intros l x p Hx Hp.
    destruct l as [|[|l]]; cbn in Hx; [| |done]; injection Hx as <-; discriminate Hp.
Qed.

End ClosedStore.

(** X9: [immutableUpdate] keeps the store closed: if every reference held
    in the store is to an object of the store, and so are the arguments,
    the same holds after the call. The new object refers only to objects
    that existed before. *)
Theorem immutableUpdate_closed (h : heap) (object : value) (rest : list value) :
  closed h →
  Forall (in_store h) (object :: rest) →
  ∃ (target : loc) (h' : heap) (fields : bag),
    immutableUpdate object rest h = Some (Return (VObject target), h') ∧
    h' !! target = Some fields ∧
    (∀ k v, fields !! k = Some v → in_store h v) ∧
    closed h'.
Proof.
  intros Hclosed Hs.
  destruct (immutableUpdate_run_closed h object rest Hclosed Hs) as (t & Hrun & Ht).
  exists (length (objects h)), (push h t), (props t).
  split_and!.
  - exact Hrun.
  - apply lookup_new.
  - apply Ht.
  - by apply closed_push.
Qed.

Lemma immutableUpdate_closed_witness :
  ∃ (target : loc) (h' : heap) (fields : bag),
    immutableUpdate (VObject 0) [VObject 1; VString "xy"] Sample.store
      = Some (Return (VObject target), h') ∧
    h' !! target = Some fields ∧
    (∀ k v, fields !! k = Some v → in_store Sample.store v) ∧
    closed h'.
Proof.
  apply (immutableUpdate_closed Sample.store (VObject 0) [VObject 1; VString "xy"]).
  - exact sample_store_closed.
  - repeat constructor.
Defined.

(* ===================================================================== *)
(** ** The guards, composed *)
(* ===================================================================== *)

(** X11: [ensureExists] raises exactly on null and undefined, whatever
    the message; when it returns, the value returned is the item, and it
    is neither null nor undefined. *)
Theorem ensureExists_raises_iff (item message : value) :
  (raises (ensureExists item message) = true ↔ item = VNull ∨ item = VUndefined) ∧
  (∀ v, outcome (ensureExists item message) = Return v →
        v = item ∧ v ≠ VNull ∧ v ≠ VUndefined).
Proof.
  destruct (decide (item = VNull)) as [->|Hnull].
  { split; [split; [by left|done]|]. intros v. by rewrite ensureExists_null. }
  destruct (decide (item = VUndefined)) as [->|Hundef].
  { split; [split; [by right|done]|]. intros v. by rewrite ensureExists_undefined. }
  rewrite ensureExists_present by done. split.
  - split; [done|]. by intros [?|?].
  - by intros v [= <-].
Qed.

Lemma ensureExists_raises_iff_witness :
  raises (ensureExists VNull (VString "no thread")) = true ∧
  (VNumber 0 = VNumber 0 ∧ VNumber 0 ≠ VNull ∧ VNumber 0 ≠ VUndefined).
Proof.
  split.
  - destruct (ensureExists_raises_iff VNull (VString "no thread")) as [[_ H] _].
    apply H. left. reflexivity.
  - destruct (ensureExists_raises_iff (VNumber 0) VUndefined) as [_ H].
    apply H. reflexivity.
Defined.

(** X12: guarding a conversion: [ensureExists] applied to the result of
    [convertToTransformType] returns the string when it is one of the ten
    recognized ones and otherwise throws, with the message for null when
    no message is supplied; it raises exactly on unrecognized strings. *)
Theorem ensureExists_convertToTransformType (s : string) (message : value) :
  (s ∈ TransformType →
     (t ← convertToTransformType s; ensureExists t message) = mret (VString s)) ∧
  (s ∉ TransformType →
     (t ← convertToTransformType s; ensureExists t VUndefined)
     = throw (Error "Expected an item to exist, and it was null.")) ∧
  (raises (t ← convertToTransformType s; ensureExists t message) = true
   ↔ s ∉ TransformType).
Proof.
  rewrite !convertToTransformType_unfold.
  case_bool_decide as Hs; cbn.
  - split_and!; [done|done|]. split; [|done].
    unfold ensureExists, strict_equal. cbn. done.
  - split_and!; [done|done|]. split; [done|].
    intros _. unfold ensureExists, strict_equal. cbn. done.
Qed.

Lemma ensureExists_convertToTransformType_witness :
  (t ← convertToTransformType "merge-function"; ensureExists t VUndefined)
    = mret (VString "merge-function") ∧
  (t ← convertToTransformType "merge"; ensureExists t VUndefined)
    = throw (Error "Expected an item to exist, and it was null.").
Proof.
  split.
  - destruct (ensureExists_convertToTransformType "merge-function" VUndefined) as (H & _).
    apply H. apply (bool_decide_unpack _). vm_compute. exact I.
  - destruct (ensureExists_convertToTransformType "merge" VUndefined) as (_ & H & _).
    apply H. apply (bool_decide_unpack _). vm_compute. exact I.
Defined.

(** X13: guarding the first item: [ensureExists] applied to
    [getFirstItemFromSet] raises exactly when the set is empty or its
    first member is null or undefined, with the message for undefined on
    the empty set when no message is supplied; otherwise it returns the
    first member. *)
Theorem ensureExists_getFirstItemFromSet (set : JSSet) (message : value) :
  (raises (ensureExists (getFirstItemFromSet set) message) = true
   ↔ set = [] ∨ head set = Some VNull ∨ head set = Some VUndefined) ∧
  (set = [] →
     ensureExists (getFirstItemFromSet set) VUndefined
     = throw (Error "Expected an item to exist, and it was undefined.")) ∧
  (∀ x, head set = Some x → x ≠ VNull → x ≠ VUndefined →
        ensureExists (getFirstItemFromSet set) message = mret x).
Proof.
  split_and!.
  - destruct set as [|x set']; cbn [getFirstItemFromSet head].
    + rewrite ensureExists_undefined. split; [by left|done].
    + destruct (decide (x = VNull)) as [->|Hnull].
      { rewrite ensureExists_null. split; [by right; left|done]. }
      destruct (decide (x = VUndefined)) as [->|Hundef].
      { rewrite ensureExists_undefined. split; [by right; right|done]. }
      rewrite ensureExists_present by done. split; [done|].
      intros [?|[[= ?]|[= ?]]]; done.
  - by intros ->.
  - intros x Hhead Hnull Hundef. destruct set as [|y set']; [done|].
    injection Hhead as ->. by apply ensureExists_present.
Qed.

Lemma ensureExists_getFirstItemFromSet_witness :
  ensureExists (getFirstItemFromSet []) VUndefined
    = throw (Error "Expected an item to exist, and it was undefined.") ∧
  ensureExists (getFirstItemFromSet [VString "main"; VNull]) VUndefined
    = mret (VString "main").
Proof.
  split.
  - destruct (ensureExists_getFirstItemFromSet [] VUndefined) as (_ & H & _).
    apply H. reflexivity.
  - destruct (ensureExists_getFirstItemFromSet [VString "main"; VNull] VUndefined)
      as (_ & _ & H).
    apply H; [reflexivity|discriminate|discriminate].
Defined.

(** X14: the first item of a set that has a member is fixed by that
    member: whatever is inserted afterwards, [getFirstItemFromSet] keeps
    returning it. *)
Theorem getFirstItemFromSet_stable (set later : JSSet) :
  set ≠ [] →
  getFirstItemFromSet (set ++ later) = getFirstItemFromSet set.
Proof. by destruct set. Qed.

Lemma getFirstItemFromSet_stable_witness :
  getFirstItemFromSet ([VNumber 3] ++ [VNumber 1; VNumber 2])
  = getFirstItemFromSet [VNumber 3].
Proof.
  apply (getFirstItemFromSet_stable [VNumber 3] [VNumber 1; VNumber 2]).
  discriminate.
Defined.

(* ===================================================================== *)
(** ** The keys of an update *)
(* ===================================================================== *)

Lemma overridden_dom (sources : list bag) :
  ∀ acc : bag, dom (overridden sources acc) = dom acc ∪ ⋃ (dom <$> sources).
Proof.
  induction sources as [|from sources IH]; intros acc; cbn.
  - by rewrite (right_id_L ∅ (∪)).
  - unfold overridden in IH. rewrite IH, dom_union_L.
    apply set_eq. intros k. rewrite !elem_of_union. tauto.
Qed.

(** X17: for arguments without an own field named [__proto__],
    [immutableUpdate] loses no key and invents none: the keys of the
    result are the keys of [object] together with the keys of every
    member of [rest]; with a single patch object the fields are those of
    the patch, completed by the fields of [object] the patch lacks. *)
Theorem immutableUpdate_keys (h : heap) (object : value) (rest : list value) :
  Forall (in_store h) (object :: rest) →
  Forall (no_proto_key h) (object :: rest) →
  ∃ (target : loc) (h' : heap) (fields : bag),
    immutableUpdate object rest h = Some (Return (VObject target), h') ∧
    h' !! target = Some fields ∧
    dom fields = ⋃ ((fun source => dom (props_in h source)) <$> object :: rest) ∧
    (∀ patch, rest = [patch] → fields = props_in h patch ∪ props_in h object).
Proof.
  intros Hs Hn.
  exists (length (objects h)),
    (push h (Object (overridden (props_in h <$> object :: rest) ∅) ObjectPrototype)),
    (overridden (props_in h <$> object :: rest) ∅).
  split_and!.
  - by apply immutableUpdate_run.
  - apply (lookup_new h (Object _ ObjectPrototype)).
  - rewrite overridden_dom, dom_empty_L, (left_id_L ∅ (∪)).
    by rewrite <- list_fmap_compose.
  - intros patch ->. cbn. by rewrite (right_id_L ∅ (∪)).
Qed.

Lemma immutableUpdate_keys_witness :
  ∃ (target : loc) (h' : heap) (fields : bag),
    immutableUpdate (VObject 0) [VObject 1] Sample.store
      = Some (Return (VObject target), h') ∧
    h' !! target = Some fields ∧
    dom fields
    = ⋃ ((fun source => dom (props_in Sample.store source)) <$> [VObject 0; VObject 1]) ∧
    fields = props_in Sample.store (VObject 1) ∪ props_in Sample.store (VObject 0).
Proof.
  destruct (immutableUpdate_keys Sample.store (VObject 0) [VObject 1])
    as (target & h' & fields & Hrun & Hfields & Hdom & Hpatch).
  - repeat constructor.
  - repeat constructor.
  - exists target, h', fields. split_and!; try done. by apply Hpatch.
Defined.

(* ===================================================================== *)
(** ** The key [__proto__] *)
(* ===================================================================== *)

(** Assignment to the key [__proto__] on the sample store, whose first
    object has no prototype, whose second is an object literal and whose
    third has the second as prototype. *)

(** On an object that inherits the accessor, a Number is ignored. *)
Example assign_proto_number :
  set_property 1 "__proto__" (VNumber 5) Sample.store_with_prototypes
  = Some (Return tt, Sample.store_with_prototypes).
Proof. reflexivity. Qed.

(** Null and an object become the prototype; no property is created. *)
Example assign_proto_null :
  set_property 1 "__proto__" VNull Sample.store_with_prototypes
  = Some (Return tt,
          Heap_of [Object ∅ NullPrototype; Object Sample.a1_b2 NullPrototype;
                   Object ∅ (PrototypeAt 1)]).
Proof. reflexivity. Qed.

Example assign_proto_object :
  set_property 1 "__proto__" (VObject 0) Sample.store_with_prototypes
  = Some (Return tt,
          Heap_of [Object ∅ NullPrototype; Object Sample.a1_b2 (PrototypeAt 0);
                   Object ∅ (PrototypeAt 1)]).
Proof. reflexivity. Qed.

(** The accessor is found through the prototype chain. *)
Example assign_proto_inherited :
  set_property 2 "__proto__" VNull Sample.store_with_prototypes
  = Some (Return tt,
          Heap_of [Object ∅ NullPrototype; Object Sample.a1_b2 ObjectPrototype;
                   Object ∅ NullPrototype]).
Proof. reflexivity. Qed.

(** An object cannot become its own ancestor. *)
Example assign_proto_cycle :
  set_property 1 "__proto__" (VObject 2) Sample.store_with_prototypes
  = Some (Throw (TypeError "Cyclic __proto__ value"), Sample.store_with_prototypes).
Proof. reflexivity. Qed.

(** Without the accessor in its chain, the object gains a property. *)
Example assign_proto_no_accessor :
  set_property 0 "__proto__" (VNumber 5) Sample.store_with_prototypes
  = Some (Return tt,
          Heap_of [Object (<["__proto__" := VNumber 5]> ∅) NullPrototype;
                   Object Sample.a1_b2 ObjectPrototype; Object ∅ (PrototypeAt 1)]).
Proof. vm_compute. reflexivity. Qed.

(** Definition, unlike assignment, always creates the property. *)
Example define_proto :
  define_property 1 "__proto__" (VNumber 5) Sample.store_with_prototypes
  = Some (tt,
          Heap_of [Object ∅ NullPrototype;
                   Object (<["__proto__" := VNumber 5]> Sample.a1_b2) ObjectPrototype;
                   Object ∅ (PrototypeAt 1)]).
Proof. reflexivity. Qed.

(** Two sources with an own [__proto__] field: the first takes the
    prototype of the new object away, so the second defines a field. *)
Example immutableUpdate_proto_twice :
  immutableUpdate (VObject 0) [VObject 1]
    (Heap_of [Object (<["__proto__" := VNull]> ∅) ObjectPrototype;
              Object (<["__proto__" := VNumber 5]> ∅) ObjectPrototype])
  = Some (Return (VObject 2),
          Heap_of [Object (<["__proto__" := VNull]> ∅) ObjectPrototype;
                   Object (<["__proto__" := VNumber 5]> ∅) ObjectPrototype;
                   Object (<["__proto__" := VNumber 5]> ∅) NullPrototype]).
Proof. vm_compute. reflexivity. Qed.

Section ProtoKey.

Implicit Types (h : heap) (o acc : bag) (t : object) (l : loc) (k : string).

(** An object literal has the accessor. *)
Lemma finds_proto_accessor_literal fuel h :
  finds_proto_accessor fuel h ObjectPrototype = true.
Proof. by destruct fuel. Qed.

Lemma assigned_others_lookup (g : value → string → value) entries :
  ∀ acc k,
    NoDup entries.*1 →
    assigned g acc (others entries) !! k
    = if decide (k = "__proto__") then acc !! k
      else match (list_to_map entries : bag) !! k with
           | Some v => Some (g v k)
           | None => acc !! k
           end.
Proof.
  induction entries as [|[key v] entries IH]; intros acc k Hnd.
  - cbn. rewrite lookup_empty. by case_decide.
  - rewrite fmap_cons in Hnd. cbn [fst] in Hnd.
    apply NoDup_cons in Hnd as [Hkey Hnd].
    unfold others. rewrite filter_cons. cbn [fst]. case_decide as Hother.
    + cbn [assigned foldl]. unfold others, assigned in IH. rewrite IH by done.
      case_decide as Hk.
      * subst k. by rewrite lookup_insert_ne.
      * rewrite list_to_map_cons. destruct (decide (key = k)) as [->|Hne].
        -- rewrite !lookup_insert_eq.
           apply not_elem_of_list_to_map_1 in Hkey. by rewrite Hkey.
        -- by rewrite !lookup_insert_ne.
    + subst key.
      unfold others in IH. rewrite IH by done. cbn.
      case_decide as Hk; [done|]. by rewrite lookup_insert_ne.
Qed.

(** The loop of [objectMap] with a callback that computes [g], on any
    entries: the entry for [__proto__], if there is one, runs the setter
    on the object under construction, which has the accessor; the others
    become properties. *)
Lemma objectMap_loop_pure h (g : value → string → value) entries :
  closed h →
  NoDup entries.*1 →
  (∀ v, ("__proto__", v) ∈ entries → in_store h (g v "__proto__")) →
  ∀ acc p,
    acc !! "__proto__" = None →
    ("__proto__" ∈ entries.*1 → p = ObjectPrototype) →
    ∃ p',
      for_of entries (fun '(key, value) =>
        v ← pure_callback g value key;
        set_property (length (objects h)) key v) (push h (Object acc p))
      = Some (Return tt, push h (Object (assigned g acc (others entries)) p')).
Proof.
  intros Hclosed. induction entries as [|[key v] entries IH];
    intros Hnd Hin acc p Hacc Hp.
  - by exists p.
  - rewrite fmap_cons in Hnd, Hp. cbn [fst] in Hnd, Hp.
    apply NoDup_cons in Hnd as [Hkey Hnd].
    cbn [for_of]. do 2 exc_bind.
    unfold pure_callback at 1, mret at 1, HeapExc_ret at 1.
    unfold others. rewrite filter_cons. cbn [fst].
    destruct (decide (key = "__proto__")) as [->|Hother].
    + destruct (decide ("__proto__" ≠ "__proto__")) as [Hne|_]; [by destruct Hne|].
      rewrite (set_property_proto_key _ _ (Object acc p));
        [|apply objects_push_new|done|].
      2:{ cbn [proto]. rewrite Hp by apply list_elem_of_here.
          apply finds_proto_accessor_literal. }
      assert (∃ p1, proto_setter (length (objects h)) (g v "__proto__")
                      (push h (Object acc p))
                    = Some (Return tt, push h (Object acc p1))) as [p1 ->].
      { pose proof (Hin v (list_elem_of_here _ _)) as Hv.
        destruct (g v "__proto__") as [| | | | |q]; cbn [proto_setter];
          try by exists p.
        - destruct (set_prototype_new h (Object acc p) NullPrototype Hclosed)
            as ([acc' p1] & -> & Hprops & _); [done|].
          cbn in Hprops. subst acc'. by exists p1.
        - destruct (set_prototype_new h (Object acc p) (PrototypeAt q) Hclosed)
            as ([acc' p1] & -> & Hprops & _).
          { by intros ? [= <-]. }
          cbn in Hprops. subst acc'. by exists p1. }
      apply IH;
        [done
        |intros v' Hv'; apply Hin; by apply list_elem_of_further
        |done
        |intros Hagain; by destruct Hkey].
    + destruct (decide (key ≠ "__proto__")) as [_|Hno]; [|by destruct Hno].
      rewrite (set_property_plain _ _ (Object acc p)); [|done|apply objects_push_new].
      rewrite replace_new. cbn [props proto assigned foldl].
      apply IH;
        [done
        |intros v' Hv'; apply Hin; by apply list_elem_of_further
        |by rewrite lookup_insert_ne
        |intros Hagain; apply Hp; by apply list_elem_of_further].
Qed.

End ProtoKey.

(** X18: [objectMap] never defines a property named [__proto__] on its
    result. On a closed store, for every bag, with or without that key,
    and every callback that computes [f] from its arguments alone, the
    keys of the result are the keys of the input other than [__proto__],
    each key [k] holding [f (input[k]) k], provided the value computed
    for the key [__proto__], if the input has it, is in the store. *)
Theorem objectMap_never_defines_proto (h : heap) (object : loc) (o : bag)
    (f : value → string → value) :
  closed h →
  h !! object = Some o →
  (∀ v, o !! "__proto__" = Some v → in_store h (f v "__proto__")) →
  ∃ (result : loc) (h' : heap) (r : bag),
    objectMap object (pure_callback f) h = Some (Return result, h') ∧
    h' !! result = Some r ∧
    r !! "__proto__" = None ∧
    (∀ k, k ≠ "__proto__" → r !! k = (fun v => f v k) <$> o !! k) ∧
    dom r = dom o ∖ {["__proto__"]}.
Proof.
  intros Hclosed Ho Hf.
  destruct (objectMap_loop_pure h f (map_to_list o) Hclosed (NoDup_fst_map_to_list o))
    with (acc := (∅ : bag)) (p := ObjectPrototype) as [p' Hrun]; try done.
  { intros v Hv. apply Hf. by apply elem_of_map_to_list. }
  set (r := assigned f ∅
              (filter (fun e : string * value => e.1 ≠ "__proto__") (map_to_list o)))
    in Hrun.
  assert (∀ k, r !! k = if decide (k = "__proto__") then None
                        else (fun v => f v k) <$> o !! k) as Hr.
  { intros k. unfold r. rewrite assigned_others_lookup by apply NoDup_fst_map_to_list.
    rewrite list_to_map_to_list, lookup_empty. case_decide; [done|].
    by destruct (o !! k). }
  exists (length (objects h)), (push h (Object r p')), r. split_and!.
  - unfold objectMap. exc_bind. unfold lift at 1. rewrite alloc_run.
    exc_bind. unfold lift at 1.
    rewrite (objectEntries_run _ _ o) by by apply lookup_old.
    exc_bind. by rewrite Hrun.
  - apply (lookup_new h (Object r p')).
  - rewrite Hr. by rewrite decide_True.
  - intros k Hk. rewrite Hr. by rewrite decide_False.
  - apply set_eq. intros k.
    rewrite elem_of_difference, !elem_of_dom, elem_of_singleton, Hr.
    case_decide as Hk.
    + split; [by intros [? ?]|by intros [_ ?]].
    + rewrite fmap_is_Some. split; [by intros ?|by intros [? _]].
Qed.

Lemma objectMap_never_defines_proto_witness :
  ∃ (result : loc) (h' : heap) (r : bag),
    objectMap 0 (pure_callback Sample.double) Sample.store_with_proto_key
      = Some (Return result, h') ∧
    h' !! result = Some r ∧
    r !! "__proto__" = None ∧
    (∀ k, k ≠ "__proto__" →
          r !! k = (fun v => Sample.double v k) <$> Sample.proto5_a1 !! k) ∧
    dom r = dom Sample.proto5_a1 ∖ {["__proto__"]}.
Proof.
  apply (objectMap_never_defines_proto Sample.store_with_proto_key 0 Sample.proto5_a1
           Sample.double).
  - split.
    + intros l o k v Hl Hk. destruct l as [|l]; cbn in Hl; [|done].
      injection Hl as <-. apply elem_of_map_to_list in Hk. vm_compute in Hk.
      repeat (apply elem_of_cons in Hk as [[= _ ->]|Hk]; [done|]).
      by apply elem_of_nil in Hk.
    + intros l x p Hx Hp. destruct l as [|l]; cbn in Hx; [|done].
      injection Hx as <-. discriminate Hp.
  - reflexivity.
  - intros v Hv. vm_compute in Hv. by injection Hv as <-.
Defined.
